(** * Edge log batching and resilient forwarding: a shallow embedding

    The TypeScript workers of [src/index.ts] are embedded as Rocq functions:

    - [JS]         the ECMAScript built-ins the workers rely on
                   ([parseInt], [Number], [Math.max], string helpers);
    - [PipelineA]  the capture-and-batch worker: [cfg], [toNumber],
                   [logAndBatch], [scheduleFlush], [flush] and the
                   per-isolate state they share;
    - [PipelineB]  the sampling forwarder: [clamp], the header filter and
                   the retry loop of [fetch].

    Asynchronous functions are cut at their [await]s: the part that runs
    up to the suspension and the part that runs when the awaited promise
    settles are separate functions, and an event-driven transition system
    interleaves them the way the single-threaded event loop may. *)

From Stdlib Require Import ZArith QArith Qcanon Qround Qminmax Lqa Lia Bool List.
From Stdlib Require Import Ascii String.
From stdpp Require Import gmap strings.
Import ListNotations.

Local Open Scope string_scope.
Local Open Scope list_scope.
Local Open Scope Z_scope.

(* ===================================================================== *)
(** ** ECMAScript built-ins *)
(* ===================================================================== *)

Module JS.

(** An ECMAScript Number.  Finite values are kept as exact rationals:
    the workers only compare them, take minima and maxima, double them or
    add integers, so rounding plays no part.  Overflow to an infinity is
    kept (it is what [Number.isFinite] guards against); the two zeros are
    identified. *)
Inductive number : Type :=
| NaN
| NegInf
| PosInf
| Fin (q : Q).

Definition of_Z (z : Z) : number := Fin (inject_Z z).
Definition of_nat (n : nat) : number := Fin (inject_Z (Z.of_nat n)).

(** The least magnitude that no longer rounds to a finite double. *)
Definition overflow_bound : Z := 2 ^ 1024 - 2 ^ 970.

Definition of_real (q : Q) : number :=
  if Qle_bool (inject_Z overflow_bound) q then PosInf
  else if Qle_bool q (- inject_Z overflow_bound) then NegInf
  else Fin (Qred q).

Definition Number_isFinite (n : number) : bool :=
  match n with Fin _ => true | _ => false end.

Definition Number_isNaN (n : number) : bool :=
  match n with NaN => true | _ => false end.

(** [ToBoolean] on a Number: zero and NaN are falsy. *)
Definition truthy (n : number) : bool :=
  match n with
  | NaN => false
  | Fin q => negb (Qeq_bool q 0)
  | _ => true
  end.

(** [a < b]; any comparison with NaN is false. *)
Definition lt (a b : number) : bool :=
  match a, b with
  | NaN, _ | _, NaN => false
  | _, NegInf => false
  | NegInf, _ => true
  | PosInf, _ => false
  | _, PosInf => true
  | Fin x, Fin y => negb (Qle_bool y x)
  end.

Definition gt (a b : number) : bool := lt b a.

(** [a <= b]; false when either side is NaN. *)
Definition le (a b : number) : bool :=
  match a, b with
  | NaN, _ | _, NaN => false
  | NegInf, _ => true
  | _, PosInf => true
  | _, NegInf => false
  | PosInf, _ => false
  | Fin x, Fin y => Qle_bool x y
  end.

Definition ge (a b : number) : bool := le b a.

Definition Math_min (a b : number) : number :=
  match a, b with
  | NaN, _ | _, NaN => NaN
  | _, _ => if lt a b then a else b
  end.

Definition Math_max (a b : number) : number :=
  match a, b with
  | NaN, _ | _, NaN => NaN
  | _, _ => if lt a b then b else a
  end.

Definition Math_floor (a : number) : number :=
  match a with
  | Fin q => Fin (inject_Z (Qfloor q))
  | _ => a
  end.

Definition add (a b : number) : number :=
  match a, b with
  | NaN, _ | _, NaN => NaN
  | PosInf, NegInf | NegInf, PosInf => NaN
  | PosInf, _ | _, PosInf => PosInf
  | NegInf, _ | _, NegInf => NegInf
  | Fin x, Fin y => of_real (x + y)
  end.

Definition sign_of (q : Q) : comparison := (q ?= 0)%Q.

Definition mul (a b : number) : number :=
  match a, b with
  | NaN, _ | _, NaN => NaN
  | Fin x, Fin y => of_real (x * y)
  | Fin x, PosInf | PosInf, Fin x =>
      match sign_of x with Eq => NaN | Lt => NegInf | Gt => PosInf end
  | Fin x, NegInf | NegInf, Fin x =>
      match sign_of x with Eq => NaN | Lt => PosInf | Gt => NegInf end
  | PosInf, PosInf | NegInf, NegInf => PosInf
  | PosInf, NegInf | NegInf, PosInf => NaN
  end.

(** The values [Math.random()] may return: [0 <= r < 1]. *)
Definition unit_interval (r : Q) : bool :=
  Qle_bool 0 r && negb (Qle_bool 1 r).

(** *** Strings

    A string is a sequence of code units below 256 (Latin-1). *)

Definition code (c : ascii) : N := N_of_ascii c.

(** [StrWhiteSpaceChar] within Latin-1: TAB, LF, VT, FF, CR, SP, NBSP. *)
Definition is_space (c : ascii) : bool :=
  let n := code c in
  ((9 <=? n) && (n <=? 13) || (n =? 32) || (n =? 160))%N.

(** The value of a digit in a radix up to 16, if it is one. *)
Definition digit_value (radix : N) (c : ascii) : option Z :=
  let n := code c in
  let v :=
    if ((48 <=? n) && (n <=? 57))%N then Some (n - 48)%N
    else if ((97 <=? n) && (n <=? 102))%N then Some (n - 87)%N
    else if ((65 <=? n) && (n <=? 70))%N then Some (n - 55)%N
    else None in
  match v with
  | Some d => if (d <? radix)%N then Some (Z.of_N d) else None
  | None => None
  end.

Fixpoint drop_spaces (l : list ascii) : list ascii :=
  match l with
  | c :: t => if is_space c then drop_spaces t else l
  | [] => []
  end.

Definition chars (s : string) : list ascii := list_ascii_of_string s.
Definition str (l : list ascii) : string := string_of_list_ascii l.

(** [String.prototype.trim] *)
Definition trim (s : string) : string :=
  str (rev (drop_spaces (rev (drop_spaces (chars s))))).

Definition lower_char (c : ascii) : ascii :=
  let n := code c in
  if ((65 <=? n) && (n <=? 90) ||
      (192 <=? n) && (n <=? 222) && negb (n =? 215))%N
  then ascii_of_N (n + 32) else c.

(** [String.prototype.toLowerCase] *)
Definition toLowerCase (s : string) : string :=
  str (map lower_char (chars s)).

(** [String.prototype.split] with a one-character separator: the pieces
    between separators, empty pieces included. *)
Fixpoint split_chars (sep : ascii) (cur : list ascii) (l : list ascii)
  : list string :=
  match l with
  | [] => [str (rev cur)]
  | c :: t =>
      if Ascii.eqb c sep then str (rev cur) :: split_chars sep [] t
      else split_chars sep (c :: cur) t
  end.

Definition split (sep : ascii) (s : string) : list string :=
  split_chars sep [] (chars s).

(** [Boolean(s)] on a string: only the empty string is falsy. *)
Definition nonempty (s : string) : bool :=
  match s with EmptyString => false | _ => true end.

(** [a ?? b] *)
Definition nullish {A} (a : option A) (b : A) : A :=
  match a with Some x => x | None => b end.

(** [a || b] on an optional string: [undefined] and [""] are falsy. *)
Definition or_else (a : option string) (b : string) : string :=
  match a with
  | Some x => if nonempty x then x else b
  | None => b
  end.

(** *** Numeric parsing *)

(** The longest prefix of digits of the radix, as digit values, and the
    rest. *)
Fixpoint span_digits (radix : N) (l : list ascii) : list Z * list ascii :=
  match l with
  | c :: t =>
      match digit_value radix c with
      | Some d => let '(ds, r) := span_digits radix t in (d :: ds, r)
      | None => ([], l)
      end
  | [] => ([], [])
  end.

Definition digits_value (radix : Z) (ds : list Z) : Z :=
  fold_left (fun acc d => radix * acc + d) ds 0.

(** Optional sign: [-1] after a minus, [1] otherwise. *)
Definition take_sign (l : list ascii) : Z * list ascii :=
  match l with
  | "-"%char :: t => (-1, t)
  | "+"%char :: t => (1, t)
  | _ => (1, l)
  end.

(** [parseInt(s, 10)]: leading white space and a sign are skipped, the
    longest run of decimal digits is read, anything after it is ignored;
    no digit at all gives NaN. *)
Definition parseInt (s : string) : number :=
  let '(sign, r) := take_sign (drop_spaces (chars s)) in
  match span_digits 10 r with
  | ([], _) => NaN
  | (ds, _) => of_real (inject_Z (sign * digits_value 10 ds))
  end.

Definition Qpow10 (e : Z) : Q := Qpower 10 e.

(** [ExponentPart], when the literal has one; [None] marks a malformed
    one. *)
Definition exponent_part (l : list ascii) : option Z :=
  match l with
  | [] => Some 0
  | c :: t =>
      if Ascii.eqb c "e" || Ascii.eqb c "E" then
        let '(sg, r) := take_sign t in
        match span_digits 10 r with
        | ((_ :: _) as ds, []) => Some (sg * digits_value 10 ds)
        | _ => None
        end
      else None
  end.

(** [StrUnsignedDecimalLiteral] other than [Infinity]. *)
Definition unsigned_decimal (l : list ascii) : option Q :=
  let '(ip, r1) := span_digits 10 l in
  let '(fp, r2, dot) :=
    match r1 with
    | "."%char :: t => let '(f, r) := span_digits 10 t in (f, r, true)
    | _ => ([], r1, false)
    end in
  match ip, fp with
  | [], [] => None
  | _, _ =>
      match exponent_part r2 with
      | Some e =>
          let m := (inject_Z (digits_value 10 ip) +
                    inject_Z (digits_value 10 fp) *
                    Qpow10 (- Z.of_nat (List.length fp)))%Q in
          Some (m * Qpow10 e)%Q
      | None => None
      end
  end.

(** [NonDecimalIntegerLiteral]: [0x], [0o], [0b] and their capitals. *)
Definition non_decimal (l : list ascii) : option Z :=
  match l with
  | "0"%char :: p :: t =>
      let radix :=
        if Ascii.eqb p "x" || Ascii.eqb p "X" then Some 16%N
        else if Ascii.eqb p "o" || Ascii.eqb p "O" then Some 8%N
        else if Ascii.eqb p "b" || Ascii.eqb p "B" then Some 2%N
        else None in
      match radix with
      | Some rx =>
          match span_digits rx t with
          | ((_ :: _) as ds, []) => Some (digits_value (Z.of_N rx) ds)
          | _ => None
          end
      | None => None
      end
  | _ => None
  end.

(** [Number(s)] ([StringToNumber]): white space is trimmed on both
    sides; the empty string is 0; a literal must span the whole rest. *)
Definition Number (s : string) : number :=
  let l := chars (trim s) in
  match l with
  | [] => Fin 0
  | _ =>
      match non_decimal l with
      | Some z => of_real (inject_Z z)
      | None =>
          let '(sg, r) := take_sign l in
          if String.eqb (str r) "Infinity" then
            (if (sg <? 0)%Z then NegInf else PosInf)
          else
            match unsigned_decimal r with
            | Some q => of_real (inject_Z sg * q)
            | None => NaN
            end
      end
  end.

End JS.

(* ===================================================================== *)
(** ** Pipeline A: capture and batch *)
(* ===================================================================== *)

Module PipelineA.
Import JS.

Record Env : Type := {
  CLARITY_ENDPOINT : option string;
  BATCH_MS : option string;
  BATCH_MAX_REQUESTS : option string;
  BACKOFF_BASE_MS : option string;
  BACKOFF_MAX_MS : option string
}.

Module defaults.
Definition BATCH_MS : number := of_Z 20000.
Definition BATCH_MAX_REQUESTS : number := of_Z 200.
Definition BACKOFF_BASE_MS : number := of_Z 2000.
Definition BACKOFF_MAX_MS : number := of_Z 60000.
End defaults.

Record Config : Type := {
  clarityEndpoint : string;
  batchMs : number;
  batchMax : number;
  backoffBase : number;
  backoffMax : number
}.

Definition toNumber (v : option string) (fallback : number) : number :=
  let n := match v with Some s => parseInt s | None => NaN end in
  if Number_isFinite n then n else fallback.

Definition cfg (env : Env) : Config :=
  {| clarityEndpoint := nullish (option_map trim (CLARITY_ENDPOINT env)) "";
     batchMs := toNumber (BATCH_MS env) defaults.BATCH_MS;
     batchMax := toNumber (BATCH_MAX_REQUESTS env) defaults.BATCH_MAX_REQUESTS;
     backoffBase := toNumber (BACKOFF_BASE_MS env) defaults.BACKOFF_BASE_MS;
     backoffMax := toNumber (BACKOFF_MAX_MS env) defaults.BACKOFF_MAX_MS |}.

(** The object [buildLogObject] returns. *)
Record LogEvent : Type := {
  EdgeStartTimestamp : string;
  ClientIP : string;
  ClientCountry : string;
  ClientCity : string;
  ClientRequestScheme : string;
  ClientRequestHost : string;
  ClientRequestURI : string;
  ClientRequestMethod : string;
  ClientRequestUserAgent : string;
  ClientRequestReferer : string;
  EdgeResponseStatus : number
}.

(** The module-level variables of the isolate. *)
Record State : Type := {
  batch : list LogEvent;
  flushScheduled : bool;
  backoffUntil : number;
  backoffMs : number
}.

Definition initial : State :=
  {| batch := []; flushScheduled := false;
     backoffUntil := Fin 0; backoffMs := Fin 0 |}.

Definition set_batch (b : list LogEvent) (s : State) : State :=
  {| batch := b; flushScheduled := flushScheduled s;
     backoffUntil := backoffUntil s; backoffMs := backoffMs s |}.

Definition set_flushScheduled (f : bool) (s : State) : State :=
  {| batch := batch s; flushScheduled := f;
     backoffUntil := backoffUntil s; backoffMs := backoffMs s |}.

Definition set_backoff (until ms : number) (s : State) : State :=
  {| batch := batch s; flushScheduled := flushScheduled s;
     backoffUntil := until; backoffMs := ms |}.

(** How [await fetch(clarityEndpoint, req)] settles: with a response,
    or by rejecting (the [catch] branch). *)
Inductive FetchOutcome : Type :=
| Responded (status : Z)
| Rejected.

(** [flush] up to its [await]: either it returned, or it issued the POST
    of [toSend] and is suspended on it. *)
Inductive Flushing : Type :=
| Returned (s : State)
| Awaiting (s : State) (toSend : list LogEvent).

Definition flush_begin (env : Env) (now : number) (s : State) : Flushing :=
  if lt now (backoffUntil s) then Returned s
  else
    let toSend := batch s in
    let s := set_batch [] s in
    if (List.length toSend =? 0)%nat then Returned s
    else Awaiting s toSend.

(** The three assignments the source makes on a 429 or 403 and again in
    its [catch] branch. *)
Definition backoff_and_requeue (c : Config) (toSend : list LogEvent)
    (random : Q) (now : number) (s : State) : State :=
  let ms :=
    if truthy (backoffMs s)
    then Math_min (mul (backoffMs s) (Fin 2)) (backoffMax c)
    else backoffBase c in
  let jitter := Math_floor (mul (Fin random) (Fin 500)) in
  let until := add (add now ms) jitter in
  set_batch (toSend ++ batch s) (set_backoff until ms s).

(** [flush] from the moment the POST settles. *)
Definition flush_settle (env : Env) (toSend : list LogEvent)
    (o : FetchOutcome) (random : Q) (now : number) (s : State) : State :=
  let c := cfg env in
  match o with
  | Responded status =>
      if (status =? 429) || (status =? 403)
      then backoff_and_requeue c toSend random now s
      else set_backoff (Fin 0) (Fin 0) s
  | Rejected => backoff_and_requeue c toSend random now s
  end.

(** A POST to the sink: its URL and the events whose JSON lines, in this
    order, make its body. *)
Record SinkPost : Type := {
  post_url : string;
  post_lines : list LogEvent
}.

(** The isolate and what is pending around it: the timers [sleep] armed
    (with their delays), the flushes suspended on their POST (with their
    [toSend]), and every POST issued so far. *)
Record World : Type := {
  vars : State;
  timers : list number;
  inflight : list (list LogEvent);
  posts : list SinkPost
}.

Definition boot : World :=
  {| vars := initial; timers := []; inflight := []; posts := [] |}.

Definition set_vars (s : State) (w : World) : World :=
  {| vars := s; timers := timers w; inflight := inflight w;
     posts := posts w |}.

(** A call of [flush(env)], run to its first suspension. *)
Definition flush (env : Env) (now : number) (w : World) : World :=
  match flush_begin env now (vars w) with
  | Returned s => set_vars s w
  | Awaiting s toSend =>
      {| vars := s; timers := timers w;
         inflight := inflight w ++ [toSend];
         posts := posts w ++
                  [{| post_url := clarityEndpoint (cfg env);
                      post_lines := toSend |}] |}
  end.

(** [scheduleFlush] up to [await sleep(batchMs)]: one timer is armed. *)
Definition scheduleFlush (env : Env) (w : World) : World :=
  {| vars := vars w; timers := timers w ++ [batchMs (cfg env)];
     inflight := inflight w; posts := posts w |}.

(** [scheduleFlush] once its timer has fired. *)
Definition scheduleFlush_resume (env : Env) (now : number) (w : World)
  : World :=
  let w := set_vars (set_flushScheduled false (vars w)) w in
  if (0 <? List.length (batch (vars w)))%nat then flush env now w else w.

(** [logAndBatch], with [e] the object [buildLogObject] made. *)
Definition logAndBatch (env : Env) (e : LogEvent) (now : number)
    (w : World) : World :=
  let w := set_vars (set_batch (batch (vars w) ++ [e]) (vars w)) w in
  if ge (of_nat (List.length (batch (vars w)))) (batchMax (cfg env))
  then flush env now w
  else if negb (flushScheduled (vars w))
  then scheduleFlush env (set_vars (set_flushScheduled true (vars w)) w)
  else w.

(** What the event loop may run next.  [now] is what [Date.now()]
    returns during the step, [random] what [Math.random()] returns. *)
Inductive Event : Type :=
| Capture (e : LogEvent) (now : Z)
| TimerFires (i : nat) (now : Z)
| FetchSettles (i : nat) (o : FetchOutcome) (random : Q) (now : Z).

(** One turn of the event loop; [None] when the event cannot happen
    (no such timer, no such pending POST, no such random draw). *)
Definition step (env : Env) (w : World) (ev : Event) : option World :=
  match ev with
  | Capture e now => Some (logAndBatch env e (of_Z now) w)
  | TimerFires i now =>
      match timers w !! i with
      | Some _ =>
          Some (scheduleFlush_resume env (of_Z now)
                  {| vars := vars w; timers := delete i (timers w);
                     inflight := inflight w; posts := posts w |})
      | None => None
      end
  | FetchSettles i o random now =>
      match inflight w !! i with
      | Some toSend =>
          if unit_interval random then
            Some {| vars := flush_settle env toSend o random (of_Z now)
                              (vars w);
                    timers := timers w;
                    inflight := delete i (inflight w);
                    posts := posts w |}
          else None
      | None => None
      end
  end.

Fixpoint run (env : Env) (w : World) (evs : list Event) : option World :=
  match evs with
  | [] => Some w
  | ev :: evs' =>
      match step env w ev with
      | Some w' => run env w' evs'
      | None => None
      end
  end.

(** The events [logAndBatch] appended over a run, in order. *)
Definition captured (evs : list Event) : list LogEvent :=
  flat_map (fun ev => match ev with Capture e _ => [e] | _ => [] end) evs.

Definition is_settle (ev : Event) : bool :=
  match ev with FetchSettles _ _ _ _ => true | _ => false end.

(** The outcomes the sink client treats as failures, after its contract:
    a transport error, or a response with status 429 or 403. *)
Definition sink_failure (o : FetchOutcome) : bool :=
  match o with
  | Rejected => true
  | Responded status => (status =? 429) || (status =? 403)
  end.

(** The scheduler flag counts the outstanding timers. *)
Definition timer_matches_flag (w : World) : Prop :=
  List.length (timers w) = if flushScheduled (vars w) then 1%nat else 0%nat.

(** The configuration the monotonicity of the backoff rests on:
    [0 <= backoffBase <= backoffMax]. *)
Definition ordered_backoff (c : Config) : Prop :=
  le (Fin 0) (backoffBase c) = true /\
  le (backoffBase c) (backoffMax c) = true.

(** [backoffMs] lies between 0 and the configured maximum. *)
Definition backoff_in_range (c : Config) (s : State) : Prop :=
  le (Fin 0) (backoffMs s) = true /\
  le (backoffMs s) (backoffMax c) = true.

End PipelineA.

(* ===================================================================== *)
(** ** Pipeline B: sampling and resilient forwarding *)
(* ===================================================================== *)

Module PipelineB.
Import JS.

Record Env : Type := {
  INGEST_URL : string;
  TENANT_KEY : string;
  SAMPLE_RATE : option string;
  REDACT_HEADERS : option string;
  SIGN_BODY : option string;
  REQUEST_TIMEOUT_MS : option string
}.

Definition UA : string := "cf-forwarder/1.2".
Definition RETRIES : nat := 2.
Definition REDACTED : string := "__REDACTED__".

Definition clamp (n min max : number) : number :=
  if Number_isNaN n then min else Math_max min (Math_min max n).

(** The [Headers] class: a map from lower-cased names to values.  Names
    are taken to be valid header names and values to be normalised, so no
    operation throws. *)
Module Headers.

Definition lower_byte (c : ascii) : ascii :=
  let n := code c in
  if ((65 <=? n) && (n <=? 90))%N then ascii_of_N (n + 32) else c.

Definition lower (name : string) : string :=
  str (map lower_byte (chars name)).

Definition get (h : gmap string string) (name : string) : option string :=
  h !! lower name.

Definition has (h : gmap string string) (name : string) : bool :=
  match get h name with Some _ => true | None => false end.

Definition set (h : gmap string string) (name value : string)
  : gmap string string :=
  <[lower name := value]> h.

Definition append (h : gmap string string) (name value : string)
  : gmap string string :=
  match get h name with
  | Some old => set h name (String.append old (String.append ", " value))
  | None => set h name value
  end.

(** The headers of a request that arrived with these fields. *)
Definition of_list (l : list (string * string)) : gmap string string :=
  fold_left (fun h nv => append h (fst nv) (snd nv)) l ∅.

End Headers.

(** [new Set(list)]: the distinct members in order of first insertion. *)
Definition Set_of (l : list string) : list string :=
  fold_left
    (fun acc x => if existsb (String.eqb x) acc then acc else acc ++ [x])
    l [].

Record Request : Type := {
  pathname : string;
  headers : gmap string string;
  body : option string
}.

Record Response : Type := {
  status : Z;
  payload : option string
}.

(** What is sent as the body of the upstream POST: the request's own
    body stream, or the bytes buffered for signing. *)
Inductive SendBody : Type :=
| Original (stream : option string)
| Buffered (bytes : string).

(** One upstream POST ([method], [redirect] and [cf] are constants). *)
Record UpstreamCall : Type := {
  call_url : string;
  call_headers : gmap string string;
  call_body : SendBody;
  call_timeout : number
}.

(** How one [await fetch(env.INGEST_URL, ...)] ends: with a response of
    some status, or by throwing (transport error, or the abort fired by
    the per-attempt timer). *)
Inductive Upstream : Type :=
| Status (code : Z)
| Thrown.

Definition redact_set (env : Env) : list string :=
  Set_of
    (List.filter nonempty
       (map (fun h => toLowerCase (trim h))
            (split "," (nullish (REDACT_HEADERS env) "authorization,cookie")))).

Definition redact_headers (redact : list string) (h : gmap string string)
  : gmap string string :=
  fold_left
    (fun fh name =>
       if Headers.has fh name then Headers.set fh name REDACTED else fh)
    redact h.

Definition truthy_string (v : option string) : bool :=
  match v with Some s => nonempty s | None => false end.

(** [forwardHeaders] as it stands before the optional signature. *)
Definition filtered_headers (env : Env) (request : Request)
  : gmap string string :=
  let fh := headers request in
  let fh := redact_headers (redact_set env) fh in
  let fh := Headers.set fh "x-tenant-key" (TENANT_KEY env) in
  let fh := Headers.set fh "user-agent" UA in
  if negb (truthy_string (Headers.get fh "content-type"))
  then Headers.set fh "content-type" "application/json"
  else fh.

(** [Number(env.SAMPLE_RATE ?? "1.0")], the rate as configured. *)
Definition configured_rate (env : Env) : number :=
  Number (nullish (SAMPLE_RATE env) "1.0").

(** [rate], the configured rate clamped to the unit interval. *)
Definition sample_rate (env : Env) : number :=
  clamp (configured_rate env) (Fin 0) (Fin 1).

(** The sampling gate lets the call through unless [Math.random() > rate]. *)
Definition admitted (env : Env) (random : Q) : bool :=
  negb (gt (Fin random) (sample_rate env)).

Definition timeoutMs (env : Env) : number :=
  Math_max (Fin 1) (parseInt (or_else (REQUEST_TIMEOUT_MS env) "6000")).

Definition signing (env : Env) : bool :=
  String.eqb (toLowerCase (nullish (SIGN_BODY env) "false")) "true".

Section Forwarder.

(** [hmacSha256Hex(key, data)], computed by the platform's Web Crypto. *)
Variable hmacSha256Hex : string -> string -> string.

(** The upstream, as seen by the worker: what the [attempt]-th POST
    ends with. *)
Variable upstream : nat -> UpstreamCall -> Upstream.

(** The [while (true)] loop.  [fuel] bounds the iterations unrolled;
    [trace] collects the POSTs made, each with the value of [attempt]
    it was made under. *)
Fixpoint retry_loop (retries : nat) (call : UpstreamCall)
    (fuel : nat) (attempt : nat) (trace : list (nat * UpstreamCall))
  : option (Response * list (nat * UpstreamCall)) :=
  match fuel with
  | O => None
  | S fuel' =>
      let attempt := S attempt in
      let trace := trace ++ [(attempt, call)] in
      match upstream attempt call with
      | Status code =>
          if (500 <=? code) && (attempt <=? retries + 1)%nat
          then retry_loop retries call fuel' attempt trace
          else Some ({| status := code; payload := None |}, trace)
      | Thrown =>
          if (retries + 1 <? attempt)%nat
          then Some ({| status := 524; payload := None |}, trace)
          else retry_loop retries call fuel' attempt trace
      end
  end.

(** The headers and body of the upstream POST. *)
Definition forward (env : Env) (request : Request)
  : gmap string string * SendBody :=
  let forwardHeaders := filtered_headers env request in
  if signing env then
    let arr := nullish (body request) "" in
    let signature := hmacSha256Hex (TENANT_KEY env) arr in
    (Headers.set forwardHeaders "x-signature" signature, Buffered arr)
  else (forwardHeaders, Original (body request)).

(** The worker's [fetch] handler, with [random] what [Math.random()]
    returns; the result pairs the response with the upstream POSTs
    made. *)
Definition fetch (fuel : nat) (request : Request) (env : Env)
    (random : Q) : option (Response * list (nat * UpstreamCall)) :=
  if String.eqb (pathname request) "/__health"
  then Some ({| status := 200; payload := Some "ok" |}, [])
  else if gt (Fin random) (sample_rate env)
  then Some ({| status := 204; payload := None |}, [])
  else
    let '(forwardHeaders, bodyForSend) := forward env request in
    let call := {| call_url := INGEST_URL env;
                   call_headers := forwardHeaders;
                   call_body := bodyForSend;
                   call_timeout := timeoutMs env |} in
    retry_loop RETRIES call fuel 0 [].

End Forwarder.

End PipelineB.

(* ===================================================================== *)
(** ** The platform's Headers, with its checks *)
(* ===================================================================== *)

(** [PipelineB.Headers] above is the [Headers] class on valid names and
    values in normal form.  Here are the operations as the Fetch standard
    has them: a name that is no header token, or a value that is no header
    value, throws a TypeError ([None]), and [set] stores the value with
    its leading and trailing HTTP white space removed. *)
Module Platform.
Import JS PipelineB.

(** HTTP white space: TAB, LF, CR, SP. *)
Definition is_http_space (c : ascii) : bool :=
  let n := code c in
  ((n =? 9) || (n =? 10) || (n =? 13) || (n =? 32))%N.

Fixpoint drop_http_space (l : list ascii) : list ascii :=
  match l with
  | c :: t => if is_http_space c then drop_http_space t else l
  | [] => []
  end.

(** A value with its leading and trailing HTTP white space removed. *)
Definition normalize (v : string) : string :=
  str (rev (drop_http_space (rev (drop_http_space (chars v))))).

(** The characters of an HTTP token: letters, digits and
    [!#$%&'*+-.^_`|~]. *)
Definition is_token_char (c : ascii) : bool :=
  let n := code c in
  ((48 <=? n) && (n <=? 57) || (65 <=? n) && (n <=? 90) ||
   (97 <=? n) && (n <=? 122) ||
   (n =? 33) || (35 <=? n) && (n <=? 39) || (n =? 42) || (n =? 43) ||
   (n =? 45) || (n =? 46) || (n =? 94) || (n =? 95) || (n =? 96) ||
   (n =? 124) || (n =? 126))%N.

(** A header name: a non-empty token. *)
Definition valid_name (name : string) : bool :=
  nonempty name && forallb is_token_char (chars name).

(** A header value: no NUL, LF or CR, and no HTTP white space at either
    end. *)
Definition valid_value (v : string) : bool :=
  forallb (fun c => let n := code c in
                    negb ((n =? 0) || (n =? 10) || (n =? 13))%N) (chars v)
  && String.eqb (normalize v) v.

(** [h.has(name)] *)
Definition has (h : gmap string string) (name : string) : option bool :=
  if valid_name name then Some (Headers.has h name) else None.

(** [h.get(name)] *)
Definition get (h : gmap string string) (name : string)
  : option (option string) :=
  if valid_name name then Some (Headers.get h name) else None.

(** [h.set(name, value)] *)
Definition set (h : gmap string string) (name value : string)
  : option (gmap string string) :=
  let v := normalize value in
  if valid_name name && valid_value v then Some (Headers.set h name v)
  else None.

(** The redaction loop, stopped by the first operation that throws. *)
Definition redact_checked (redact : list string) (h : gmap string string)
  : option (gmap string string) :=
  fold_left
    (fun acc name =>
       match acc with
       | None => None
       | Some fh =>
           match has fh name with
           | None => None
           | Some true => set fh name REDACTED
           | Some false => Some fh
           end
       end)
    redact (Some h).

(** How a call of the handler ends: with a response, after the upstream
    POSTs of [trace], or by throwing before any POST. *)
Inductive Handled : Type :=
| Answered (resp : Response) (trace : list (nat * UpstreamCall))
| Threw.

Section Checked.

(** [hmacSha256Hex(key, data)], a promise that may reject ([None]). *)
Variable hmacSha256Hex : string -> string -> option string.

Variable upstream : nat -> UpstreamCall -> Upstream.

(** The headers and the body the handler hands to every upstream POST
    (lines 224 to 240 of the source), or [None] when one of its [Headers]
    operations or the signing throws; the handler then throws before any
    POST. *)
Definition forward_checked (env : Env) (request : Request)
  : option (gmap string string * SendBody) :=
  match redact_checked (redact_set env) (headers request) with
  | None => None
  | Some redacted =>
  match set redacted "x-tenant-key" (TENANT_KEY env) with
  | None => None
  | Some keyed =>
  match set keyed "user-agent" UA with
  | None => None
  | Some agent =>
  match get agent "content-type" with
  | None => None
  | Some ct =>
  match (if negb (truthy_string ct)
         then set agent "content-type" "application/json"
         else Some agent) with
  | None => None
  | Some typed =>
      if signing env then
        let arr := nullish (body request) "" in
        match hmacSha256Hex (TENANT_KEY env) arr with
        | None => None
        | Some signature =>
            match set typed "x-signature" signature with
            | None => None
            | Some signed => Some (signed, Buffered arr)
            end
        end
      else Some (typed, Original (body request))
  end end end end end.

(** The worker's [fetch] handler with these checks; the outer [None] is
    the loop out of fuel. *)
Definition fetch_checked (fuel : nat) (request : Request) (env : Env)
    (random : Q) : option Handled :=
  if String.eqb (pathname request) "/__health"
  then Some (Answered {| status := 200; payload := Some "ok" |} [])
  else if gt (Fin random) (sample_rate env)
  then Some (Answered {| status := 204; payload := None |} [])
  else
    match forward_checked env request with
    | None => Some Threw
    | Some (forwardHeaders, bodyForSend) =>
        let call := {| call_url := INGEST_URL env;
                       call_headers := forwardHeaders;
                       call_body := bodyForSend;
                       call_timeout := timeoutMs env |} in
        match retry_loop upstream RETRIES call fuel 0 [] with
        | Some (resp, trace) => Some (Answered resp trace)
        | None => None
        end
    end.

End Checked.

End Platform.

(* ===================================================================== *)
(** ** Pipeline A: the request handler and the log record *)
(* ===================================================================== *)

Module Capture.
Import JS PipelineA.

(** The parts of [new URL(request.url)] the worker reads. *)
Record URL : Type := {
  protocol : string;
  host : string;
  pathname : string;
  search : string
}.

(** The fields of [request.cf] the worker reads. *)
Record Cf : Type := {
  country : option string;
  city : option string;
  httpProtocol : option string
}.

Record Request : Type := {
  url : URL;
  cf : option Cf;
  headers : gmap string string;
  method : string
}.

Record Response : Type := {
  status : number
}.

(** [s.replace(":", "")]: a string pattern replaces its first
    occurrence only. *)
Fixpoint remove_first (c : ascii) (l : list ascii) : list ascii :=
  match l with
  | [] => []
  | x :: t => if Ascii.eqb x c then t else x :: remove_first c t
  end.

Definition replace_colon (s : string) : string :=
  str (remove_first ":" (chars s)).

(** [a || b] on strings: the empty string is falsy. *)
Definition or_string (a b : string) : string :=
  if nonempty a then a else b.

(** [h.get(name) || b]: a missing header ([null]) and an empty one are
    falsy. *)
Definition header_or (h : gmap string string) (name : string) (b : string)
  : string :=
  match PipelineB.Headers.get h name with
  | Some v => or_string v b
  | None => b
  end.

(** [cf.field || ""] with [cf = request.cf || {}]. *)
Definition cf_field (c : option Cf) (field : Cf -> option string) : string :=
  match c with
  | Some x => or_else (field x) ""
  | None => ""
  end.

(** [buildLogObject]; [timestamp] is [new Date().toISOString()]. *)
Definition buildLogObject (timestamp : string) (request : Request)
    (response : Response) : LogEvent :=
  let u := url request in
  let protocol :=
    or_string (replace_colon (or_string (protocol u) ""))
      (if nonempty (cf_field (cf request) httpProtocol) then "https"
       else "") in
  {| EdgeStartTimestamp := timestamp;
     ClientIP :=
       header_or (headers request) "cf-connecting-ip"
         (header_or (headers request) "x-real-ip" "");
     ClientCountry := cf_field (cf request) country;
     ClientCity := cf_field (cf request) city;
     ClientRequestScheme := protocol;
     ClientRequestHost := header_or (headers request) "host" (host u);
     ClientRequestURI :=
       String.append (pathname u) (or_string (search u) "");
     ClientRequestMethod := method request;
     ClientRequestUserAgent := header_or (headers request) "user-agent" "";
     ClientRequestReferer := header_or (headers request) "referer" "";
     EdgeResponseStatus :=
       if truthy (status response) then status response else Fin 0 |}.

(** The worker's [fetch] handler.  [origin] is how [await fetch(request)]
    ends: with the origin's response, or by throwing, in which case the
    handler throws too ([None]) and nothing is logged. *)
Definition fetch (env : Env) (request : Request) (origin : option Response)
    (timestamp : string) (now : number) (w : World)
  : option Response * World :=
  match origin with
  | Some response =>
      (Some response,
       logAndBatch env (buildLogObject timestamp request response) now w)
  | None => (None, w)
  end.

(** The events of the POSTs that settled without a failure over a run:
    what the sink client gave up its hold on. *)
Fixpoint acknowledged (env : Env) (w : World) (evs : list Event)
  : list LogEvent :=
  match evs with
  | [] => []
  | ev :: evs' =>
      match step env w ev with
      | Some w' =>
          match ev with
          | FetchSettles i o _ _ =>
              if sink_failure o then []
              else match inflight w !! i with
                   | Some toSend => toSend
                   | None => []
                   end
          | _ => []
          end ++ acknowledged env w' evs'
      | None => []
      end
  end.

(** Every POST carries at least one event and goes to the configured
    endpoint, and every pending POST holds at least one event. *)
Definition posts_well_formed (env : Env) (w : World) : Prop :=
  Forall (fun p => post_lines p <> [] /\
                   post_url p = clarityEndpoint (cfg env)) (posts w) /\
  Forall (fun toSend => toSend <> []) (inflight w).

(** One [logAndBatch] after another, each with its log record and its
    clock reading. *)
Definition captures (caps : list (LogEvent * Z)) : list Event :=
  map (fun p => Capture (fst p) (snd p)) caps.

(** An override [toNumber] cannot use: absent, or not parsing to a finite
    number. *)
Definition unusable (v : option string) : Prop :=
  v = None \/ exists s, v = Some s /\ Number_isFinite (parseInt s) = false.

(** A streak of failed flushes, each with its requeued batch, its random
    draw and its clock reading. *)
Fixpoint failures (c : Config) (attempts : list (list LogEvent * Q * number))
    (s : State) : State :=
  match attempts with
  | [] => s
  | (toSend, random, now) :: rest =>
      failures c rest (backoff_and_requeue c toSend random now s)
  end.

(** The events put back at the front of the queue over a run: the
    outboxes of the POSTs that settled as failures, the latest first. *)
Fixpoint requeued (env : Env) (w : World) (evs : list Event)
  : list LogEvent :=
  match evs with
  | [] => []
  | ev :: evs' =>
      match step env w ev with
      | Some w' =>
          requeued env w' evs' ++
          match ev with
          | FetchSettles i o _ _ =>
              if sink_failure o then
                match inflight w !! i with
                | Some toSend => toSend
                | None => []
                end
              else []
          | _ => []
          end
      | None => []
      end
  end.

(** A POST settling as a failure. *)
Definition is_failed_settle (ev : Event) : bool :=
  match ev with
  | FetchSettles _ o _ _ => sink_failure o
  | _ => false
  end.

End Capture.

(* ===================================================================== *)
(** ** The Pages relay function *)
(* ===================================================================== *)

Module Pages.
Import JS.

(** [s.replace(/\/$/, "")]: one slash is dropped from the very end. *)
Definition strip_trailing_slash (s : string) : string :=
  match rev (chars s) with
  | "/"%char :: t => str (rev t)
  | _ => s
  end.

Record Request : Type := {
  headers : gmap string string;
  body : option string
}.

(** The POST the relay makes ([method] and [redirect] are constants). *)
Record RelayCall : Type := {
  target : string;
  relay_headers : gmap string string;
  relay_body : option string
}.

(** How the relay ends: with a response, or by throwing. *)
Inductive Outcome : Type :=
| Answer (status : Z) (payload : option string)
| Throws.

Section Relay.

(** [new URL(endpoint).toString()]: the serialised URL, or [None] when
    the constructor throws on a string that is no URL. *)
Variable href : string -> option string.

(** How [await fetch(target, ...)] ends: the status of the response, or
    [None] when it throws. *)
Variable upstream : RelayCall -> option Z.

(** [onRequestPost], with the POSTs it made. *)
Definition onRequestPost (WORKER_ENDPOINT : option string)
    (request : Request) : Outcome * list RelayCall :=
  match WORKER_ENDPOINT with
  | None => (Answer 500 (Some "WORKER_ENDPOINT not configured"), [])
  | Some endpoint =>
      if negb (nonempty endpoint)
      then (Answer 500 (Some "WORKER_ENDPOINT not configured"), [])
      else
        match href endpoint with
        | None => (Throws, [])
        | Some url =>
            let call := {| target := strip_trailing_slash url;
                           relay_headers := headers request;
                           relay_body := body request |} in
            match upstream call with
            | Some status => (Answer status None, [call])
            | None => (Throws, [call])
            end
        end
  end.

End Relay.

End Pages.

(* ===================================================================== *)
(** ** Pipeline B: the hex signature *)
(* ===================================================================== *)

Module Signing.
Import JS.

(** The digit of a value below 16, as [toString(16)] writes it. *)
Definition hex_digit (n : N) : ascii :=
  if (n <? 10)%N then ascii_of_N (48 + n) else ascii_of_N (87 + n).

(** [b.toString(16)] for a byte [b] (a value below 256): one digit below
    16, two from there on. *)
Definition toString16 (b : N) : list ascii :=
  if (b <? 16)%N then [hex_digit b]
  else [hex_digit (b / 16); hex_digit (b mod 16)].

(** [s.padStart(2, "0")] *)
Definition padStart2 (l : list ascii) : list ascii :=
  repeat "0"%char (2 - List.length l) ++ l.

(** [[...bytes].map(b => b.toString(16).padStart(2, "0")).join("")] *)
Definition hex (bytes : list Byte.byte) : string :=
  str (flat_map (fun b => padStart2 (toString16 (Byte.to_N b))) bytes).

Section Hmac.

(** [crypto.subtle.sign("HMAC", key, data)] with the key imported from
    the UTF-8 bytes of [key]: the digest bytes. *)
Variable hmac_sha256 : string -> string -> list Byte.byte.

Definition hmacSha256Hex (key data : string) : string :=
  hex (hmac_sha256 key data).

End Hmac.

(** The value of a hex digit, lower case only. *)
Definition unhex_digit (c : ascii) : option N :=
  let n := code c in
  if ((48 <=? n) && (n <=? 57))%N then Some (n - 48)%N
  else if ((97 <=? n) && (n <=? 102))%N then Some (n - 87)%N
  else None.

(** Reading a hex string back, two digits to the byte. *)
Fixpoint unhex_chars (l : list ascii) : option (list Byte.byte) :=
  match l with
  | [] => Some []
  | hi :: lo :: t =>
      match unhex_digit hi, unhex_digit lo, unhex_chars t with
      | Some h, Some d, Some bs =>
          match Byte.of_N (16 * h + d) with
          | Some b => Some (b :: bs)
          | None => None
          end
      | _, _, _ => None
      end
  | _ => None
  end.

Definition unhex (s : string) : option (list Byte.byte) :=
  unhex_chars (chars s).

End Signing.

(* ===================================================================== *)
(** ** Concrete deployments and traffic *)
(* ===================================================================== *)

Module Scenarios.
Import JS.

Module A.
Import PipelineA.

Definition event (uri : string) (status : Z) : LogEvent :=
  {| EdgeStartTimestamp := "2024-01-01T00:00:00.000Z";
     ClientIP := "203.0.113.7";
     ClientCountry := "NL";
     ClientCity := "";
     ClientRequestScheme := "https";
     ClientRequestHost := "example.com";
     ClientRequestURI := uri;
     ClientRequestMethod := "GET";
     ClientRequestUserAgent := "curl/8.0";
     ClientRequestReferer := "";
     EdgeResponseStatus := of_Z status |}.

Definition a : LogEvent := event "/a" 200.
Definition b : LogEvent := event "/b" 404.
Definition c : LogEvent := event "/c" 200.

(** Only the endpoint is set: every numeric field takes its default. *)
Definition env_defaults : Env :=
  {| CLARITY_ENDPOINT := Some "https://sink.example/ingest";
     BATCH_MS := None; BATCH_MAX_REQUESTS := None;
     BACKOFF_BASE_MS := None; BACKOFF_MAX_MS := None |}.

(** Every capture reaches the batch ceiling and flushes at once. *)
Definition env_batch_of_one : Env :=
  {| CLARITY_ENDPOINT := Some "https://sink.example/ingest";
     BATCH_MS := None; BATCH_MAX_REQUESTS := Some "1";
     BACKOFF_BASE_MS := None; BACKOFF_MAX_MS := None |}.

(** A backoff base above the backoff maximum. *)
Definition env_base_above_max : Env :=
  {| CLARITY_ENDPOINT := Some "https://sink.example/ingest";
     BATCH_MS := None; BATCH_MAX_REQUESTS := None;
     BACKOFF_BASE_MS := Some "5000"; BACKOFF_MAX_MS := Some "1000" |}.

(** One capture, its timer, and the POST failing; then the same again
    once the backoff window has passed. *)
Definition first_failure : list Event :=
  [Capture a 0; TimerFires 0 20000; FetchSettles 0 Rejected 0 20050].

Definition second_failure : list Event :=
  [Capture b 30000; TimerFires 0 50000; FetchSettles 0 Rejected 0 50050].

End A.

Module B.
Import PipelineB.

Definition env_with (rate redact timeout : option string) : Env :=
  {| INGEST_URL := "https://ingest.example/v1";
     TENANT_KEY := "tenant-key-1";
     SAMPLE_RATE := rate;
     REDACT_HEADERS := redact;
     SIGN_BODY := None;
     REQUEST_TIMEOUT_MS := timeout |}.

Definition env_defaults : Env := env_with None None None.
Definition env_rate_zero : Env := env_with (Some "0") None None.
Definition env_rate_one : Env := env_with (Some "1") None None.
Definition env_rate_unparsable : Env := env_with (Some "half") None None.
Definition env_redact_user_agent : Env :=
  env_with None (Some "user-agent") None.
Definition env_timeout_unparsable : Env := env_with None None (Some "abc").

Definition request : Request :=
  {| pathname := "/ingest";
     headers := Headers.of_list
                  [("User-Agent", "curl/8.0");
                   ("Cookie", "session=abc");
                   ("X-Tenant-Key", "spoofed")];
     body := Some "{}" |}.

(** A stand-in for the platform's HMAC; the scenarios do not sign. *)
Definition no_hmac (key data : string) : string := "".

Definition always (code : Z) (attempt : nat) (call : UpstreamCall)
  : Upstream := Status code.

(** What the caller sees: the status and the number of upstream POSTs. *)
Definition observed (r : option (Response * list (nat * UpstreamCall)))
  : option (Z * nat) :=
  option_map (fun p => (status (fst p), List.length (snd p))) r.

End B.

End Scenarios.

(* ===================================================================== *)
(** ** More traffic: isolates at rest, a flaky upstream, a plain request *)
(* ===================================================================== *)

Module Samples.
Import JS.

Module A.
Import PipelineA Scenarios.A.

Definition sent (lines : list LogEvent) : SinkPost :=
  {| post_url := "https://sink.example/ingest"; post_lines := lines |}.

(** After one failed flush of [a] at 20050: inside the backoff window. *)
Definition cooling_down : World :=
  {| vars := {| batch := [a]; flushScheduled := false;
                backoffUntil := Fin 22050; backoffMs := Fin 2000 |};
     timers := []; inflight := []; posts := [sent [a]] |}.

(** [a] requeued, the POST of [b] still pending, no timer armed. *)
Definition stranded : World :=
  {| vars := {| batch := [a]; flushScheduled := false;
                backoffUntil := Fin 22050; backoffMs := Fin 2000 |};
     timers := []; inflight := [[b]]; posts := [sent [a]; sent [b]] |}.

Definition three_failures : list (list LogEvent * Q * number) :=
  [([a], 0%Q, of_Z 100); ([a], (1 # 2)%Q, of_Z 5000);
   ([a], (1 # 4)%Q, of_Z 20000)].

Definition page : Capture.Request :=
  {| Capture.url := {| Capture.protocol := "https:";
                       Capture.host := "example.com";
                       Capture.pathname := "/a";
                       Capture.search := "?x=1" |};
     Capture.cf := None;
     Capture.headers := PipelineB.Headers.of_list
                          [("Host", "example.com");
                           ("CF-Connecting-IP", "203.0.113.7")];
     Capture.method := "GET" |}.

End A.

Module B.
Import PipelineB.

Definition traced_request : Request :=
  {| pathname := "/ingest";
     headers := Headers.of_list
                  [("X-Trace-Id", "t-42"); ("Cookie", "session=abc")];
     body := None |}.

(** A 503 first, then a 200. *)
Definition flaky (attempt : nat) (call : UpstreamCall) : Upstream :=
  if (attempt <=? 1)%nat then Status 503 else Status 200.

Definition env_signing : Env :=
  {| INGEST_URL := "https://ingest.example/v1";
     TENANT_KEY := "tenant-key-1";
     SAMPLE_RATE := None;
     REDACT_HEADERS := None;
     SIGN_BODY := Some "TRUE";
     REQUEST_TIMEOUT_MS := None |}.

(** A tenant key with white space around it. *)
Definition env_padded_key : Env :=
  {| INGEST_URL := "https://ingest.example/v1";
     TENANT_KEY := "  key 1 ";
     SAMPLE_RATE := None;
     REDACT_HEADERS := Some "Cookie, X-Api-Token";
     SIGN_BODY := None;
     REQUEST_TIMEOUT_MS := None |}.

(** A redact list with an entry that is no header name. *)
Definition env_bad_redact_name : Env :=
  {| INGEST_URL := "https://ingest.example/v1";
     TENANT_KEY := "tenant-key-1";
     SAMPLE_RATE := None;
     REDACT_HEADERS := Some "bad name,cookie";
     SIGN_BODY := None;
     REQUEST_TIMEOUT_MS := None |}.

(** A stand-in digest: the length of the data, 32 times over. *)
Definition toy_digest (key data : string) : list Byte.byte :=
  repeat (match Byte.of_N (N.of_nat (String.length data) mod 256) with
          | Some b => b
          | None => Byte.x00
          end) 32.

End B.

End Samples.

(* ===================================================================== *)
(** ** Facts about the built-ins *)
(* ===================================================================== *)

Section NumberFacts.
Import JS.

Lemma overflow_bound_large : (1000 < overflow_bound)%Z.
Proof. vm_compute. reflexivity. Qed.

Lemma overflow_bound_Q : (inject_Z 1000 < inject_Z overflow_bound)%Q.
Proof. rewrite <- Zlt_Qlt. apply overflow_bound_large. Qed.

(** A real of small magnitude converts to itself. *)
Lemma of_real_small (q : Q) :
  (- inject_Z 1000 <= q)%Q -> (q <= inject_Z 1000)%Q ->
  of_real q = Fin (Qred q).
Proof.
  intros Hlo Hhi. unfold of_real.
  pose proof overflow_bound_Q as Hb.
  destruct (Qle_bool (inject_Z overflow_bound) q) eqn:E1.
  { apply Qle_bool_iff in E1. exfalso.
    apply (Qlt_irrefl q).
    eapply Qle_lt_trans; [exact Hhi|].
    eapply Qlt_le_trans; [exact Hb|exact E1]. }
  destruct (Qle_bool q (- inject_Z overflow_bound)) eqn:E2.
  { apply Qle_bool_iff in E2. exfalso.
    apply (Qlt_irrefl q).
    eapply Qle_lt_trans; [exact E2|].
    eapply Qlt_le_trans; [|exact Hlo].
    apply Qopp_lt_compat. exact Hb. }
  reflexivity.
Qed.

(** [of_real] never yields NaN, and a finite result is the real. *)
Lemma of_real_cases (q : Q) :
  (of_real q = PosInf /\ (inject_Z overflow_bound <= q)%Q) \/
  (of_real q = NegInf /\ (q <= - inject_Z overflow_bound)%Q) \/
  (of_real q = Fin (Qred q)).
Proof.
  unfold of_real.
  destruct (Qle_bool (inject_Z overflow_bound) q) eqn:E1.
  { left. split; [reflexivity|]. now apply Qle_bool_iff. }
  destruct (Qle_bool q (- inject_Z overflow_bound)) eqn:E2.
  { right. left. split; [reflexivity|]. now apply Qle_bool_iff. }
  right. right. reflexivity.
Qed.

Lemma lt_Fin (x y : Q) : lt (Fin x) (Fin y) = true <-> (x < y)%Q.
Proof.
  simpl. rewrite negb_true_iff. split.
  - intros H. apply Qnot_le_lt. intros Hle.
    apply Qle_bool_iff in Hle. congruence.
  - intros H. destruct (Qle_bool y x) eqn:E; [|reflexivity].
    apply Qle_bool_iff in E. exfalso. apply (Qlt_irrefl x).
    eapply Qlt_le_trans; eassumption.
Qed.

Lemma lt_Fin_false (x y : Q) : lt (Fin x) (Fin y) = false <-> (y <= x)%Q.
Proof.
  simpl. rewrite negb_false_iff. apply Qle_bool_iff.
Qed.

Lemma le_Fin (x y : Q) : le (Fin x) (Fin y) = true <-> (x <= y)%Q.
Proof. simpl. apply Qle_bool_iff. Qed.

Lemma Qred_inject_Z (z : Z) : Qred (inject_Z z) = inject_Z z.
Proof. apply Qred_identity. simpl. apply Z.gcd_1_r. Qed.

(** [parseInt] yields NaN, an infinity or an integer. *)
Lemma parseInt_cases (s : string) :
  parseInt s = NaN \/ parseInt s = PosInf \/ parseInt s = NegInf \/
  exists z : Z, parseInt s = Fin (inject_Z z).
Proof.
  unfold parseInt.
  destruct (take_sign (drop_spaces (chars s))) as [sg r].
  destruct (span_digits 10 r) as [[|d ds] rest]; [now left|].
  right.
  destruct (of_real_cases (inject_Z (sg * digits_value 10 (d :: ds))))
    as [[H _]|[[H _]|H]]; rewrite H.
  - now left.
  - right. now left.
  - right. right. eexists. rewrite Qred_inject_Z. reflexivity.
Qed.

End NumberFacts.

(* ===================================================================== *)
(** ** Pipeline B: the retry engine *)
(* ===================================================================== *)

Section RetryEngine.
Import JS PipelineB.

Variable hmacSha256Hex : string -> string -> string.
Variable upstream : nat -> UpstreamCall -> Upstream.

(** More fuel never changes a result already reached. *)
Lemma retry_loop_fuel_mono retries call fuel :
  forall attempt trace r k,
    retry_loop upstream retries call fuel attempt trace = Some r ->
    retry_loop upstream retries call (fuel + k) attempt trace = Some r.
Proof.
  induction fuel as [|fuel IH]; intros attempt trace r k H; [discriminate|].
  cbn [retry_loop Nat.add] in H |- *.
  destruct (upstream (S attempt) call) as [code|].
  - destruct ((500 <=? code) && (S attempt <=? retries + 1)%nat);
      [now apply IH | exact H].
  - destruct (retries + 1 <? S attempt)%nat; [exact H | now apply IH].
Qed.

(** From any value of [attempt] up to [retries + 1] the loop returns
    after at most [retries + 2 - attempt] further POSTs, numbered
    consecutively. *)
Lemma retry_loop_returns retries call n :
  forall attempt,
    (attempt + S n = retries + 2)%nat ->
    exists resp tr,
      (List.length tr <= S n)%nat /\
      map fst tr = seq (S attempt) (List.length tr) /\
      forall k trace,
        retry_loop upstream retries call (S n + k) attempt trace
        = Some (resp, trace ++ tr).
Proof.
  induction n as [|n IH]; intros attempt Ha.
  - destruct (upstream (S attempt) call) as [code|] eqn:Eu.
    + exists {| status := code; payload := None |}, [(S attempt, call)].
      repeat split; [simpl; lia|].
      intros k trace. cbn [retry_loop Nat.add]. rewrite Eu.
      replace (S attempt <=? retries + 1)%nat with false
        by (symmetry; apply Nat.leb_gt; lia).
      rewrite andb_false_r. reflexivity.
    + exists {| status := 524; payload := None |}, [(S attempt, call)].
      repeat split; [simpl; lia|].
      intros k trace. cbn [retry_loop Nat.add]. rewrite Eu.
      replace (retries + 1 <? S attempt)%nat with true
        by (symmetry; apply Nat.ltb_lt; lia).
      reflexivity.
  - destruct (IH (S attempt)) as (resp & tr & Hlen & Hnum & Hrun); [lia|].
    assert (Hrec : exists resp' tr',
               (List.length tr' <= S (S n))%nat /\
               map fst tr' = seq (S attempt) (List.length tr') /\
               forall k trace,
                 retry_loop upstream retries call (S n + k) (S attempt)
                   (trace ++ [(S attempt, call)])
                 = Some (resp', trace ++ tr')).
    { exists resp, ((S attempt, call) :: tr). repeat split.
      - simpl; lia.
      - simpl. now rewrite Hnum.
      - intros k trace. rewrite Hrun, <- app_assoc. reflexivity. }
    destruct (upstream (S attempt) call) as [code|] eqn:Eu.
    + destruct ((500 <=? code) && (S attempt <=? retries + 1)%nat) eqn:Ec.
      * destruct Hrec as (resp' & tr' & H1 & H2 & H3).
        exists resp', tr'. repeat split; try assumption.
        intros k trace. change (S (S n) + k)%nat with (S (S n + k)).
        cbn [retry_loop]. rewrite Eu, Ec. apply H3.
      * exists {| status := code; payload := None |}, [(S attempt, call)].
        repeat split; [simpl; lia|].
        intros k trace. change (S (S n) + k)%nat with (S (S n + k)).
        cbn [retry_loop]. rewrite Eu, Ec. reflexivity.
    + destruct (retries + 1 <? S attempt)%nat eqn:Ec.
      * exists {| status := 524; payload := None |}, [(S attempt, call)].
        repeat split; [simpl; lia|].
        intros k trace. change (S (S n) + k)%nat with (S (S n + k)).
        cbn [retry_loop]. rewrite Eu, Ec. reflexivity.
      * destruct Hrec as (resp' & tr' & H1 & H2 & H3).
        exists resp', tr'. repeat split; try assumption.
        intros k trace. change (S (S n) + k)%nat with (S (S n + k)).
        cbn [retry_loop]. rewrite Eu, Ec. apply H3.
Qed.

(** While every response is a 5xx, the loop keeps going until [attempt]
    has passed [retries + 1]. *)
Lemma retry_loop_all_5xx retries call (codes : nat -> Z) :
  (forall i, upstream i call = Status (codes i)) ->
  (forall i, 500 <= codes i) ->
  forall n attempt,
    (attempt + S n = retries + 2)%nat ->
    forall k trace,
      retry_loop upstream retries call (S n + k) attempt trace
      = Some ({| status := codes (retries + 2)%nat; payload := None |},
              trace ++ map (fun i => (i, call)) (seq (S attempt) (S n))).
Proof.
  intros Hup H5 n.
  induction n as [|n IH]; intros attempt Ha k trace.
  - cbn [retry_loop Nat.add]. rewrite Hup.
    replace (S attempt <=? retries + 1)%nat with false
      by (symmetry; apply Nat.leb_gt; lia).
    rewrite andb_false_r.
    replace (S attempt) with (retries + 2)%nat by lia. reflexivity.
  - change (S (S n) + k)%nat with (S (S n + k)).
    cbn [retry_loop]. rewrite Hup.
    replace (500 <=? codes (S attempt)) with true
      by (symmetry; apply Z.leb_le; apply H5).
    replace (S attempt <=? retries + 1)%nat with true
      by (symmetry; apply Nat.leb_le; lia).
    cbn [andb]. rewrite IH by lia.
    rewrite <- app_assoc. reflexivity.
Qed.

(** The loop never returns without having made a POST. *)
Lemma retry_loop_makes_a_call retries call fuel :
  forall attempt trace resp trace',
    retry_loop upstream retries call fuel attempt trace
    = Some (resp, trace') ->
    (List.length trace < List.length trace')%nat.
Proof.
  induction fuel as [|fuel IH]; intros attempt trace resp trace' H;
    [discriminate|].
  cbn [retry_loop] in H.
  assert (Hrec : retry_loop upstream retries call fuel (S attempt)
                   (trace ++ [(S attempt, call)]) = Some (resp, trace') ->
                 (List.length trace < List.length trace')%nat).
  { intros Hr. apply IH in Hr. rewrite length_app in Hr. cbn in Hr. lia. }
  assert (Hret : forall r,
             Some (r, trace ++ [(S attempt, call)]) = Some (resp, trace') ->
             (List.length trace < List.length trace')%nat).
  { intros r Hr. injection Hr as _ <-. rewrite length_app. cbn. lia. }
  destruct (upstream (S attempt) call) as [code|].
  - destruct ((500 <=? code) && (S attempt <=? retries + 1)%nat); eauto.
  - destruct (retries + 1 <? S attempt)%nat; eauto.
Qed.

(** C10: whatever the upstream does (statuses, transport errors,
    timeouts, in any order) the retry loop terminates and returns a
    response.  With [retries + 2] iterations unrolled (or more) it has
    returned; it made at least one and at most [retries + 2] upstream
    POSTs, and [attempt] took the values 1, 2, 3, ... in turn, one per
    POST.  Less fuel can only fail to reach the result, never change it.
    The handler runs the loop with [RETRIES] for [retries]. *)
Theorem retry_loop_always_returns (retries : nat) (call : UpstreamCall) :
  exists resp tr,
    (forall k trace,
        retry_loop upstream retries call (retries + 2 + k) 0 trace
        = Some (resp, trace ++ tr)) /\
    (1 <= List.length tr <= retries + 2)%nat /\
    map fst tr = seq 1 (List.length tr) /\
    (forall fuel trace r,
        retry_loop upstream retries call fuel 0 trace = Some r ->
        r = (resp, trace ++ tr)).
Proof.
  destruct (retry_loop_returns retries call (S retries) 0)
    as (resp & tr & Hlen & Hnum & Hrun); [lia|].
  assert (Hrun' : forall k trace,
             retry_loop upstream retries call (retries + 2 + k) 0 trace
             = Some (resp, trace ++ tr)).
  { intros k trace.
    replace (retries + 2 + k)%nat with (S (S retries) + k)%nat by lia.
    apply Hrun. }
  exists resp, tr. split; [exact Hrun'|]. split; [|split].
  - split; [|lia].
    pose proof (retry_loop_makes_a_call _ _ _ _ _ _ _ (Hrun' 0%nat [])) as H.
    cbn in H. lia.
  - exact Hnum.
  - intros fuel trace r Hr.
    apply (retry_loop_fuel_mono retries call fuel 0 trace r (retries + 2))
      in Hr.
    replace (fuel + (retries + 2))%nat with (retries + 2 + fuel)%nat in Hr
      by lia.
    rewrite Hrun' in Hr. congruence.
Qed.

(** C1: when the call passes the sampling gate and every upstream
    response is a 5xx, the forwarder makes [RETRIES + 2] upstream POSTs
    (four, not the three of [RETRIES + 1]) and answers with the status of
    the last of them. *)
Theorem fetch_5xx_makes_retries_plus_two_calls
    (request : Request) (env : Env) (random : Q) (codes : nat -> Z) :
  pathname request <> "/__health" ->
  admitted env random = true ->
  (forall i call, upstream i call = Status (codes i)) ->
  (forall i, 500 <= codes i) ->
  exists trace,
    (forall k,
        fetch hmacSha256Hex upstream (RETRIES + 2 + k) request env random
        = Some ({| status := codes 4%nat; payload := None |}, trace)) /\
    List.length trace = 4%nat /\
    map fst trace = [1; 2; 3; 4]%nat.
Proof.
  intros Hpath Hadm Hup H5.
  unfold fetch.
  apply String.eqb_neq in Hpath. rewrite Hpath.
  unfold admitted in Hadm. apply negb_true_iff in Hadm. rewrite Hadm.
  destruct (forward hmacSha256Hex env request) as [fh bodyForSend].
  set (call := {| call_url := INGEST_URL env; call_headers := fh;
                  call_body := bodyForSend;
                  call_timeout := timeoutMs env |}).
  exists (map (fun i => (i, call)) (seq 1 4)).
  repeat split.
  intros k.
  replace (RETRIES + 2 + k)%nat with (S (S RETRIES) + k)%nat by lia.
  rewrite (retry_loop_all_5xx RETRIES call codes (fun i => Hup i call) H5
             (S RETRIES) 0%nat) by lia.
  reflexivity.
Qed.

End RetryEngine.

(* ===================================================================== *)
(** ** Pipeline B: the sampling gate *)
(* ===================================================================== *)

Section SamplingGate.
Import JS PipelineB.

Variable hmacSha256Hex : string -> string -> string.
Variable upstream : nat -> UpstreamCall -> Upstream.

(** A configured rate equal to 0 is clamped to 0. *)
Lemma clamp_zero (q : Q) :
  q == 0 -> exists c, clamp (Fin q) (Fin 0) (Fin 1) = Fin c /\ c == 0.
Proof.
  intros Hq. unfold clamp. cbn [Number_isNaN Math_min].
  assert (H1 : lt (Fin 1) (Fin q) = false)
    by (apply lt_Fin_false; rewrite Hq; discriminate).
  rewrite H1. cbn [Math_max].
  destruct (lt (Fin 0) (Fin q)); eexists; split;
    try reflexivity; assumption.
Qed.

(** A configured rate equal to 1 is clamped to 1. *)
Lemma clamp_one (q : Q) :
  q == 1 -> exists c, clamp (Fin q) (Fin 0) (Fin 1) = Fin c /\ c == 1.
Proof.
  intros Hq. unfold clamp. cbn [Number_isNaN Math_min].
  assert (H1 : lt (Fin 1) (Fin q) = false)
    by (apply lt_Fin_false; rewrite Hq; apply Qle_refl).
  rewrite H1. cbn [Math_max].
  assert (H0 : lt (Fin 0) (Fin q) = true)
    by (apply lt_Fin; rewrite Hq; reflexivity).
  rewrite H0. eexists; split; [reflexivity | assumption].
Qed.

(** With a rate of 0 the gate admits exactly the draw 0. *)
Lemma admitted_at_rate_zero (env : Env) (random c : Q) :
  (0 <= random)%Q -> sample_rate env = Fin c -> c == 0 ->
  (admitted env random = true <-> random == 0).
Proof.
  intros Hr Hrate Hc. unfold admitted, gt. rewrite Hrate.
  rewrite negb_true_iff, lt_Fin_false, Hc. split.
  - intros Hle. apply Qle_antisym; assumption.
  - intros Heq. rewrite Heq. apply Qle_refl.
Qed.

(** A call the gate admits reaches the upstream at least once. *)
Lemma admitted_reaches_upstream (request : Request) (env : Env)
    (random : Q) (fuel : nat) resp trace :
  pathname request <> "/__health" ->
  admitted env random = true ->
  fetch hmacSha256Hex upstream fuel request env random
  = Some (resp, trace) ->
  exists call rest, trace = (1%nat, call) :: rest.
Proof.
  intros Hpath Hadm. unfold fetch.
  apply String.eqb_neq in Hpath. rewrite Hpath.
  unfold admitted in Hadm. apply negb_true_iff in Hadm. rewrite Hadm.
  destruct (forward hmacSha256Hex env request) as [fh bodyForSend].
  destruct fuel as [|fuel]; [discriminate|].
  cbn [retry_loop app].
  set (call := {| call_url := INGEST_URL env; call_headers := fh;
                  call_body := bodyForSend;
                  call_timeout := timeoutMs env |}).
  intros H.
  destruct (retry_loop_returns upstream RETRIES call RETRIES 1)
    as (resp' & tr & _ & _ & Hrun); [lia|].
  assert (Hsuffix : forall r,
             retry_loop upstream RETRIES call fuel 1 [(1%nat, call)]
             = Some r -> exists rest, snd r = (1%nat, call) :: rest).
  { intros r Hr.
    apply (retry_loop_fuel_mono upstream) with (k := S RETRIES) in Hr.
    replace (fuel + S RETRIES)%nat with (S RETRIES + fuel)%nat in Hr
      by lia.
    rewrite Hrun in Hr. injection Hr as <-. eexists. reflexivity. }
  destruct (upstream 1%nat call) as [code|].
  - destruct ((500 <=? code) && (1 <=? RETRIES + 1)%nat).
    + destruct (Hsuffix _ H) as [rest Hrest]. simpl in Hrest. eauto.
    + injection H as _ <-. eauto.
  - destruct (RETRIES + 1 <? 1)%nat.
    + injection H as _ <-. eauto.
    + destruct (Hsuffix _ H) as [rest Hrest]. simpl in Hrest. eauto.
Qed.

(** C2 (as the code has it): for a draw in [0,1), a configured rate of 0
    admits the call exactly when the draw is 0 itself, a rate of 1
    admits every call, a rate that parses to NaN decides every draw as
    the rate 0 does, and a call the gate rejects is answered 204 with no
    upstream POST. *)
Theorem sampling_gate_boundaries (env : Env) (random : Q) :
  (0 <= random)%Q -> (random < 1)%Q ->
  (forall q, configured_rate env = Fin q -> q == 0 ->
     (admitted env random = true <-> random == 0)) /\
  (forall q, configured_rate env = Fin q -> q == 1 ->
     admitted env random = true) /\
  (configured_rate env = NaN ->
     sample_rate env = Fin 0 /\
     forall env0 q, configured_rate env0 = Fin q -> q == 0 ->
       admitted env random = admitted env0 random) /\
  (admitted env random = false ->
     forall request fuel,
       pathname request <> "/__health" ->
       fetch hmacSha256Hex upstream fuel request env random
       = Some ({| status := 204; payload := None |}, [])).
Proof.
  intros H0 H1. split; [|split; [|split]].
  - intros q Hq Hq0.
    destruct (clamp_zero q Hq0) as (c & Hc & Hc0).
    apply (admitted_at_rate_zero env random c); try assumption.
    unfold sample_rate. now rewrite Hq.
  - intros q Hq Hq1.
    destruct (clamp_one q Hq1) as (c & Hc & Hc1).
    unfold admitted, gt, sample_rate. rewrite Hq, Hc.
    rewrite negb_true_iff, lt_Fin_false, Hc1.
    now apply Qlt_le_weak.
  - intros Hnan.
    assert (Hrate : sample_rate env = Fin 0)
      by (unfold sample_rate; rewrite Hnan; reflexivity).
    split; [exact Hrate|].
    intros env0 q Hq Hq0.
    destruct (clamp_zero q Hq0) as (c & Hc & Hc0).
    assert (Hl : admitted env random = true <-> random == 0).
    { apply (admitted_at_rate_zero env random 0); try assumption.
      reflexivity. }
    assert (Hr : admitted env0 random = true <-> random == 0).
    { apply (admitted_at_rate_zero env0 random c); try assumption.
      unfold sample_rate. now rewrite Hq. }
    destruct (admitted env random), (admitted env0 random);
      try reflexivity; intuition congruence.
  - intros Hrej request fuel Hpath. unfold fetch.
    apply String.eqb_neq in Hpath. rewrite Hpath.
    unfold admitted in Hrej. apply negb_false_iff in Hrej. rewrite Hrej.
    reflexivity.
Qed.

End SamplingGate.

(* ===================================================================== *)
(** ** Pipeline B: the per-attempt timeout *)
(* ===================================================================== *)

Section TimeoutB.
Import JS PipelineB.

(** C3: an override of the per-attempt timeout that does not parse makes
    [timeoutMs] NaN, not the default of 6000. *)
Theorem timeoutMs_unparsable_is_NaN (env : Env) (s : string) :
  REQUEST_TIMEOUT_MS env = Some s ->
  nonempty s = true ->
  parseInt s = NaN ->
  timeoutMs env = NaN /\ timeoutMs env <> Fin 6000.
Proof.
  intros Hs Hne Hp. unfold timeoutMs, or_else.
  rewrite Hs, Hne, Hp. split; [reflexivity | discriminate].
Qed.

(** Absent or empty, the override falls back to 6000. *)
Lemma timeoutMs_default (env : Env) :
  REQUEST_TIMEOUT_MS env = None \/ REQUEST_TIMEOUT_MS env = Some "" ->
  timeoutMs env = Fin 6000.
Proof.
  intros [H|H]; unfold timeoutMs; rewrite H; vm_compute; reflexivity.
Qed.

End TimeoutB.

(* ===================================================================== *)
(** ** Pipeline B: redaction and forced headers *)
(* ===================================================================== *)

Section HeaderFilter.
Import JS PipelineB.

Variable hmacSha256Hex : string -> string -> string.
Variable upstream : nat -> UpstreamCall -> Upstream.

Lemma get_set (h : gmap string string) (n v n' : string) :
  Headers.get (Headers.set h n v) n'
  = if decide (Headers.lower n = Headers.lower n') then Some v
    else Headers.get h n'.
Proof. unfold Headers.get, Headers.set. apply lookup_insert. Qed.

Lemma get_set_same (h : gmap string string) (n v : string) :
  Headers.get (Headers.set h n v) n = Some v.
Proof. rewrite get_set. now rewrite decide_True. Qed.

Lemma get_set_other (h : gmap string string) (n v n' : string) :
  Headers.lower n <> Headers.lower n' ->
  Headers.get (Headers.set h n v) n' = Headers.get h n'.
Proof. intros H. rewrite get_set. now rewrite decide_False. Qed.

Lemma has_true (h : gmap string string) (n : string) :
  Headers.has h n = true <-> exists v, Headers.get h n = Some v.
Proof.
  unfold Headers.has. destruct (Headers.get h n).
  - split; eauto.
  - split; [discriminate | intros [v Hv]; discriminate].
Qed.

(** [Set_of] keeps exactly the members of the list. *)
Lemma Set_of_In (l : list string) (x : string) :
  In x (Set_of l) <-> In x l.
Proof.
  unfold Set_of.
  assert (H : forall acc,
             In x (fold_left
                     (fun acc y =>
                        if existsb (String.eqb y) acc then acc
                        else acc ++ [y]) l acc)
             <-> In x acc \/ In x l).
  { induction l as [|y l IH]; intros acc; simpl.
    - tauto.
    - rewrite IH. destruct (existsb (String.eqb y) acc) eqn:E.
      + apply existsb_exists in E. destruct E as (z & Hz & Hyz).
        apply String.eqb_eq in Hyz. subst z.
        split; [tauto|]. intros [H|[H|H]]; subst; tauto.
      + rewrite in_app_iff. simpl. tauto. }
  rewrite H. simpl. tauto.
Qed.

(** The redact set holds the configured names, trimmed and lower-cased;
    empty entries are dropped. *)
Lemma redact_set_spec (env : Env) (name : string) :
  In name (redact_set env) <->
  exists piece,
    In piece (split ","
                (nullish (REDACT_HEADERS env) "authorization,cookie")) /\
    name = toLowerCase (trim piece) /\ nonempty name = true.
Proof.
  unfold redact_set. rewrite Set_of_In, filter_In, in_map_iff.
  split.
  - intros [(piece & Hn & Hin) Hne]. exists piece. subst. tauto.
  - intros (piece & Hin & Hn & Hne). split; [|exact Hne].
    exists piece. subst. tauto.
Qed.

(** The redaction loop leaves the marker on every listed header that is
    present, and never takes a marker away. *)
Lemma redact_headers_marks (redact : list string) :
  forall (h : gmap string string) (name : string),
    (In name redact /\ Headers.has h name = true) \/
    Headers.get h name = Some REDACTED ->
    Headers.get (redact_headers redact h) name = Some REDACTED.
Proof.
  unfold redact_headers.
  induction redact as [|x redact IH]; intros h name H; simpl.
  - destruct H as [[[] _]|H]. exact H.
  - apply IH.
    destruct H as [[[Hx|Hin] Hhas]|Hget].
    + subst x. rewrite Hhas. right. apply get_set_same.
    + left. split; [exact Hin|].
      destruct (Headers.has h x); [|exact Hhas].
      apply has_true. rewrite get_set.
      destruct (decide (Headers.lower x = Headers.lower name)); eauto.
      now apply has_true.
    + right. destruct (Headers.has h x); [|exact Hget].
      rewrite get_set.
      destruct (decide (Headers.lower x = Headers.lower name)); eauto.
Qed.

(** Every POST of the loop is the one call it was given. *)
Lemma retry_loop_calls retries call fuel :
  forall attempt trace resp trace',
    retry_loop upstream retries call fuel attempt trace
    = Some (resp, trace') ->
    forall a c, In (a, c) trace' -> In (a, c) trace \/ c = call.
Proof.
  induction fuel as [|fuel IH]; intros attempt trace resp trace' H a c Hin;
    [discriminate|].
  cbn [retry_loop] in H.
  assert (Hrec : forall t,
             retry_loop upstream retries call fuel (S attempt)
               (trace ++ [(S attempt, call)]) = Some (resp, t) ->
             In (a, c) t -> In (a, c) trace \/ c = call).
  { intros t Ht Hin'. destruct (IH _ _ _ _ Ht a c Hin') as [H'|H'].
    - apply in_app_iff in H'. destruct H' as [H'|[H'|[]]]; [tauto|].
      injection H' as _ <-. tauto.
    - tauto. }
  assert (Hret : forall r,
             Some (r, trace ++ [(S attempt, call)]) = Some (resp, trace') ->
             In (a, c) trace \/ c = call).
  { intros r Hr. injection Hr as _ <-.
    apply in_app_iff in Hin. destruct Hin as [H'|[H'|[]]]; [tauto|].
    injection H' as _ <-. tauto. }
  destruct (upstream (S attempt) call) as [code|].
  - destruct ((500 <=? code) && (S attempt <=? retries + 1)%nat); eauto.
  - destruct (retries + 1 <? S attempt)%nat; eauto.
Qed.

Lemma redact_checked_stuck (redact : list string) :
  fold_left
    (fun acc name =>
       match acc with
       | None => None
       | Some fh =>
           match Platform.has fh name with
           | None => None
           | Some true => Platform.set fh name REDACTED
           | Some false => Some fh
           end
       end)
    redact None = None.
Proof. induction redact as [|x redact IH]; [reflexivity | exact IH]. Qed.

Lemma set_marker (h : gmap string string) (name : string) :
  Platform.valid_name name = true ->
  Platform.set h name REDACTED = Some (Headers.set h name REDACTED).
Proof. intros H. unfold Platform.set. rewrite H. reflexivity. Qed.

(** When the checked redaction loop gets through, every name of the list
    was a header name and the loop did what the unchecked one does. *)
Lemma redact_checked_through (redact : list string) :
  forall (h h' : gmap string string),
    Platform.redact_checked redact h = Some h' ->
    h' = redact_headers redact h /\
    Forall (fun name => Platform.valid_name name = true) redact.
Proof.
  unfold Platform.redact_checked, redact_headers.
  induction redact as [|x redact IH]; intros h h' H; cbn [fold_left] in *.
  - injection H as <-. split; [reflexivity | constructor].
  - unfold Platform.has in H at 2.
    destruct (Platform.valid_name x) eqn:Ex.
    + destruct (Headers.has h x).
      * rewrite (set_marker h x Ex) in H.
        destruct (IH _ _ H) as [-> Hall]. split; [reflexivity|].
        now constructor.
      * destruct (IH _ _ H) as [-> Hall]. split; [reflexivity|].
        now constructor.
    + rewrite redact_checked_stuck in H. discriminate H.
Qed.

(** What a checked [set] that does not throw has stored. *)
Lemma set_through (h h' : gmap string string) (name value : string) :
  Platform.set h name value = Some h' ->
  h' = Headers.set h name (Platform.normalize value) /\
  Platform.valid_value (Platform.normalize value) = true.
Proof.
  unfold Platform.set.
  destruct (Platform.valid_name name); [|discriminate].
  destruct (Platform.valid_value (Platform.normalize value));
    [|discriminate].
  intros H. injection H as <-. now split.
Qed.

(** C8 (as the code has it): whenever the handler gets as far as
    forwarding (none of its [Headers] operations throws, nor the signing),
    every header named in the redact set and present on the request goes
    upstream with the redaction marker as its value, whatever the caller
    sent, unless it is the tenant-key or user-agent header or, with
    signing on, the signature header; the tenant-key header carries the
    configured key with its leading and trailing HTTP white space
    removed, and the user-agent header the forwarder's own string,
    whatever the caller sent; and every upstream POST of the call carries
    these headers.  The handler gets that far only if every name of the
    redact set is a header name and the key, so trimmed, a header
    value. *)
Theorem redaction_and_forced_headers
    (sign : string -> string -> option string)
    (env : Env) (request : Request)
    (forwardHeaders : gmap string string) (bodyForSend : SendBody) :
  Platform.forward_checked sign env request
  = Some (forwardHeaders, bodyForSend) ->
  (forall name,
      In name (redact_set env) ->
      Headers.has (headers request) name = true ->
      Headers.lower name <> "x-tenant-key" ->
      Headers.lower name <> "user-agent" ->
      (signing env = true -> Headers.lower name <> "x-signature") ->
      Headers.get forwardHeaders name = Some REDACTED) /\
  Headers.get forwardHeaders "x-tenant-key"
  = Some (Platform.normalize (TENANT_KEY env)) /\
  Headers.get forwardHeaders "user-agent" = Some UA /\
  (forall random fuel resp trace a call,
      Platform.fetch_checked sign upstream fuel request env random
      = Some (Platform.Answered resp trace) ->
      In (a, call) trace -> call_headers call = forwardHeaders) /\
  Forall (fun name => Platform.valid_name name = true) (redact_set env) /\
  Platform.valid_value (Platform.normalize (TENANT_KEY env)) = true.
Proof.
  intros Hfwd.
  assert (Hcalls : forall random fuel resp trace a call,
             Platform.fetch_checked sign upstream fuel request env random
             = Some (Platform.Answered resp trace) ->
             In (a, call) trace -> call_headers call = forwardHeaders).
  { intros random fuel resp trace a call. unfold Platform.fetch_checked.
    rewrite Hfwd.
    destruct (String.eqb (pathname request) "/__health").
    { intros H. injection H as _ <-. intros []. }
    destruct (gt (Fin random) (sample_rate env)).
    { intros H. injection H as _ <-. intros []. }
    cbv zeta.
    destruct (retry_loop upstream RETRIES _ fuel 0 []) as [[r tr]|] eqn:El;
      [|discriminate].
    intros H. injection H as _ <-. intros Hin.
    destruct (retry_loop_calls _ _ _ _ _ _ _ El _ _ Hin) as [[]| ->].
    reflexivity. }
  revert Hfwd. unfold Platform.forward_checked.
  destruct (Platform.redact_checked (redact_set env) (headers request))
    as [redacted|] eqn:Er; [|discriminate].
  destruct (redact_checked_through _ _ _ Er) as [-> Hnames].
  destruct (Platform.set _ "x-tenant-key" (TENANT_KEY env))
    as [keyed|] eqn:Ek; [|discriminate].
  destruct (set_through _ _ _ _ Ek) as [-> Hkey].
  change (Platform.set (Headers.set (redact_headers (redact_set env)
                                       (headers request))
                          "x-tenant-key"
                          (Platform.normalize (TENANT_KEY env)))
            "user-agent" UA)
    with (Some (Headers.set
                  (Headers.set (redact_headers (redact_set env)
                                  (headers request))
                     "x-tenant-key" (Platform.normalize (TENANT_KEY env)))
                  "user-agent" UA)).
  cbv iota beta.
  set (fh := Headers.set _ "user-agent" UA).
  change (Platform.get fh "content-type")
    with (Some (Headers.get fh "content-type")).
  cbv iota beta.
  assert (Hred : forall name,
             In name (redact_set env) ->
             Headers.has (headers request) name = true ->
             Headers.lower name <> "x-tenant-key" ->
             Headers.lower name <> "user-agent" ->
             Headers.get fh name = Some REDACTED).
  { intros name Hin Hhas Ht Hu. unfold fh.
    rewrite !get_set_other by (intros E; now symmetry in E).
    apply redact_headers_marks. now left. }
  assert (Htenant : Headers.get fh "x-tenant-key"
                    = Some (Platform.normalize (TENANT_KEY env))).
  { unfold fh. rewrite get_set_other by discriminate. apply get_set_same. }
  assert (Hua : Headers.get fh "user-agent" = Some UA)
    by apply get_set_same.
  assert (Htyped : forall typed,
             (if negb (truthy_string (Headers.get fh "content-type"))
              then Platform.set fh "content-type" "application/json"
              else Some fh) = Some typed ->
             (forall name,
                 In name (redact_set env) ->
                 Headers.has (headers request) name = true ->
                 Headers.lower name <> "x-tenant-key" ->
                 Headers.lower name <> "user-agent" ->
                 Headers.get typed name = Some REDACTED) /\
             Headers.get typed "x-tenant-key"
             = Some (Platform.normalize (TENANT_KEY env)) /\
             Headers.get typed "user-agent" = Some UA).
  { intros typed.
    destruct (negb (truthy_string (Headers.get fh "content-type"))) eqn:Ec.
    - change (Platform.set fh "content-type" "application/json")
        with (Some (Headers.set fh "content-type" "application/json")).
      intros H. injection H as <-. split; [|split].
      + intros name Hin Hhas Ht Hu. rewrite get_set.
        destruct (decide (Headers.lower "content-type" = Headers.lower name))
          as [Heq|Hne]; [|now apply Hred].
        exfalso. pose proof (Hred name Hin Hhas Ht Hu) as Hm.
        unfold Headers.get in Ec, Hm. rewrite Heq, Hm in Ec.
        discriminate Ec.
      + rewrite get_set_other by discriminate. exact Htenant.
      + rewrite get_set_other by discriminate. exact Hua.
    - intros H. injection H as <-. split; [exact Hred|]. now split. }
  destruct (if negb (truthy_string (Headers.get fh "content-type"))
            then Platform.set fh "content-type" "application/json"
            else Some fh) as [typed|] eqn:Et; [|discriminate].
  destruct (Htyped typed eq_refl) as (Hred' & Htenant' & Hua').
  destruct (signing env) eqn:Es.
  - cbv zeta.
    destruct (sign (TENANT_KEY env) (nullish (body request) ""))
      as [signature|]; [|discriminate].
    destruct (Platform.set typed "x-signature" signature)
      as [signed|] eqn:Eg; [|discriminate].
    destruct (set_through _ _ _ _ Eg) as [-> _].
    intros H. injection H as <- _.
    split; [|split; [|split; [|split; [|split]]]]; try assumption.
    + intros name Hin Hhas Ht Hu Hs.
      rewrite get_set_other; [now apply Hred'|].
      intros E. apply Hs; [reflexivity | now symmetry].
    + rewrite get_set_other by discriminate. exact Htenant'.
    + rewrite get_set_other by discriminate. exact Hua'.
  - intros H. injection H as <- _.
    split; [|split; [|split; [|split; [|split]]]]; try assumption.
    intros name Hin Hhas Ht Hu _. now apply Hred'.
Qed.

(** On header names and values the platform accepts as they are, and with
    a signing that does not reject, the checked filter is the unchecked
    one: nothing throws, nothing is trimmed. *)
Lemma forward_checked_agrees (env : Env) (request : Request) :
  Forall (fun name => Platform.valid_name name = true) (redact_set env) ->
  Platform.valid_value (TENANT_KEY env) = true ->
  (signing env = true ->
   Platform.valid_value
     (hmacSha256Hex (TENANT_KEY env) (nullish (body request) "")) = true) ->
  Platform.forward_checked (fun key data => Some (hmacSha256Hex key data))
    env request
  = Some (forward hmacSha256Hex env request).
Proof.
  intros Hnames Hkey Hsig.
  assert (Hnorm : forall v, Platform.valid_value v = true ->
                            Platform.normalize v = v).
  { intros v Hv. unfold Platform.valid_value in Hv.
    apply andb_true_iff in Hv. destruct Hv as [_ Hv].
    now apply String.eqb_eq in Hv. }
  assert (Hset : forall h name v,
             Platform.valid_name name = true ->
             Platform.valid_value v = true ->
             Platform.set h name v = Some (Headers.set h name v)).
  { intros h name v Hn Hv. unfold Platform.set.
    rewrite (Hnorm v Hv), Hn, Hv. reflexivity. }
  assert (Hred : forall redact h,
             Forall (fun name => Platform.valid_name name = true) redact ->
             Platform.redact_checked redact h
             = Some (redact_headers redact h)).
  { unfold Platform.redact_checked, redact_headers.
    induction redact as [|x redact IH]; intros h Hall; [reflexivity|].
    apply Forall_cons in Hall. destruct Hall as [Hx Hall].
    cbn [fold_left]. unfold Platform.has at 2. rewrite Hx.
    destruct (Headers.has h x).
    - rewrite (set_marker h x Hx). now apply IH.
    - now apply IH. }
  unfold Platform.forward_checked, forward, filtered_headers.
  rewrite (Hred _ _ Hnames).
  rewrite (Hset _ "x-tenant-key" (TENANT_KEY env) eq_refl Hkey).
  rewrite (Hset _ "user-agent" UA eq_refl eq_refl).
  set (fh := Headers.set _ "user-agent" UA).
  change (Platform.get fh "content-type")
    with (Some (Headers.get fh "content-type")).
  cbv iota beta.
  destruct (negb (truthy_string (Headers.get fh "content-type"))).
  - rewrite (Hset fh "content-type" "application/json" eq_refl eq_refl).
    destruct (signing env); [|reflexivity].
    cbv zeta. now rewrite (Hset _ "x-signature" _ eq_refl (Hsig eq_refl)).
  - destruct (signing env); [|reflexivity].
    cbv zeta. now rewrite (Hset _ "x-signature" _ eq_refl (Hsig eq_refl)).
Qed.


End HeaderFilter.

(* ===================================================================== *)
(** ** Pipeline A: configuration *)
(* ===================================================================== *)

Section ConfigA.
Import JS PipelineA.

Lemma toNumber_absent (fallback : number) :
  toNumber None fallback = fallback.
Proof. reflexivity. Qed.

Lemma toNumber_unparsable (s : string) (fallback : number) :
  parseInt s = NaN -> toNumber (Some s) fallback = fallback.
Proof. intros H. unfold toNumber. now rewrite H. Qed.

Lemma toNumber_finite (v : option string) (fallback : number) :
  Number_isFinite fallback = true ->
  Number_isFinite (toNumber v fallback) = true.
Proof.
  intros H. unfold toNumber.
  destruct (Number_isFinite
              match v with Some s => parseInt s | None => NaN end) eqn:E;
    assumption.
Qed.

(** Every numeric field of [cfg] is a finite number. *)
Lemma cfg_finite (env : Env) :
  Number_isFinite (batchMs (cfg env)) = true /\
  Number_isFinite (batchMax (cfg env)) = true /\
  Number_isFinite (backoffBase (cfg env)) = true /\
  Number_isFinite (backoffMax (cfg env)) = true.
Proof. repeat split; apply toNumber_finite; reflexivity. Qed.

(** An override that is absent or does not parse leaves the default. *)
Lemma cfg_falls_back (v : option string) (fallback : number) :
  v = None \/ (exists s, v = Some s /\ parseInt s = NaN) ->
  toNumber v fallback = fallback.
Proof.
  intros [->|(s & -> & H)];
    [apply toNumber_absent | now apply toNumber_unparsable].
Qed.

End ConfigA.

(* ===================================================================== *)
(** ** Pipeline A: the sink client and the flush scheduler *)
(* ===================================================================== *)

Section SinkClient.
Import JS PipelineA.

Variable env : Env.

Lemma state_eta (s : State) :
  {| batch := batch s; flushScheduled := flushScheduled s;
     backoffUntil := backoffUntil s; backoffMs := backoffMs s |} = s.
Proof. now destruct s. Qed.

Lemma world_eta (w : World) :
  {| vars := vars w; timers := timers w; inflight := inflight w;
     posts := posts w |} = w.
Proof. now destruct w. Qed.

Lemma sink_failure_iff (o : FetchOutcome) :
  sink_failure o = true <->
  o = Rejected \/ o = Responded 429 \/ o = Responded 403.
Proof.
  destruct o as [status|]; simpl.
  - rewrite orb_true_iff, !Z.eqb_eq. split.
    + intros [->| ->]; auto.
    + intros [H|[H|H]]; [discriminate | injection H | injection H]; auto.
  - split; auto.
Qed.

Lemma flush_settle_failure
    (toSend : list LogEvent) (o : FetchOutcome) (random : Q)
    (now : number) (s : State) :
  sink_failure o = true ->
  flush_settle env toSend o random now s
  = backoff_and_requeue (cfg env) toSend random now s.
Proof.
  destruct o as [status|]; simpl; [|reflexivity].
  intros ->. reflexivity.
Qed.

Lemma flush_settle_success
    (toSend : list LogEvent) (o : FetchOutcome) (random : Q)
    (now : number) (s : State) :
  sink_failure o = false ->
  flush_settle env toSend o random now s = set_backoff (Fin 0) (Fin 0) s.
Proof.
  destruct o as [status|]; simpl; [|discriminate].
  intros ->. reflexivity.
Qed.

(** C4: the settled POST counts as a failure exactly when it was
    rejected or answered 429 or 403.  A failure runs the backoff and
    requeue assignments; any other status leaves the queue as it stands
    (nothing requeued) and zeroes [backoffMs] and [backoffUntil]. *)
Theorem flush_settle_classification
    (toSend : list LogEvent) (o : FetchOutcome) (random : Q)
    (now : number) (s : State) :
  let s' := flush_settle env toSend o random now s in
  (sink_failure o = true <->
     o = Rejected \/ o = Responded 429 \/ o = Responded 403) /\
  (sink_failure o = true ->
     s' = backoff_and_requeue (cfg env) toSend random now s /\
     batch s' = toSend ++ batch s) /\
  (sink_failure o = false ->
     batch s' = batch s /\ backoffMs s' = Fin 0 /\
     backoffUntil s' = Fin 0 /\ flushScheduled s' = flushScheduled s) /\
  (toSend <> [] ->
     (batch s' = toSend ++ batch s <-> sink_failure o = true)).
Proof.
  cbv zeta.
  pose proof (flush_settle_failure toSend o random now s) as Hfail.
  pose proof (flush_settle_success toSend o random now s) as Hok.
  split; [apply sink_failure_iff|].
  split; [|split].
  - intros H. rewrite (Hfail H). split; reflexivity.
  - intros H. rewrite (Hok H). repeat split.
  - intros Hne. destruct (sink_failure o) eqn:E.
    + rewrite (Hfail eq_refl). split; reflexivity.
    + rewrite (Hok eq_refl). cbn [set_backoff batch]. split; [|discriminate].
      intros H. exfalso. apply Hne.
      apply (app_inv_tail (batch s)). symmetry. exact H.
Qed.

(** C7: a call of [flush] on an empty queue, or inside the backoff
    window, issues no POST and leaves the queue, [backoffMs] and
    [backoffUntil] (the whole isolate) as they were. *)
Theorem flush_noop (now : number) (w : World) :
  batch (vars w) = [] \/ lt now (backoffUntil (vars w)) = true ->
  flush env now w = w /\
  flush_begin env now (vars w) = Returned (vars w).
Proof.
  intros H.
  assert (Hb : flush_begin env now (vars w) = Returned (vars w)).
  { unfold flush_begin.
    destruct (lt now (backoffUntil (vars w))) eqn:E; [reflexivity|].
    destruct H as [H|H]; [|discriminate].
    rewrite H. cbn [List.length Nat.eqb]. f_equal.
    unfold set_batch. rewrite <- H. apply state_eta. }
  split; [|exact Hb].
  unfold flush. rewrite Hb. unfold set_vars. apply world_eta.
Qed.

(** [flush] touches neither the timers nor the scheduler flag. *)
Lemma flush_keeps_scheduler (now : number) (w : World) :
  timers (flush env now w) = timers w /\
  flushScheduled (vars (flush env now w)) = flushScheduled (vars w).
Proof.
  unfold flush, flush_begin.
  destruct (lt now (backoffUntil (vars w))); [split; reflexivity|].
  destruct (List.length (batch (vars w)) =? 0)%nat; split; reflexivity.
Qed.

Lemma flush_settle_keeps_flag toSend o random now (s : State) :
  flushScheduled (flush_settle env toSend o random now s)
  = flushScheduled s.
Proof.
  unfold flush_settle, backoff_and_requeue.
  destruct o as [status|]; [|reflexivity].
  destruct ((status =? 429) || (status =? 403)); reflexivity.
Qed.

Lemma step_keeps_timer_matches_flag (w w' : World) (ev : Event) :
  timer_matches_flag w -> step env w ev = Some w' ->
  timer_matches_flag w'.
Proof.
  unfold timer_matches_flag. intros Hinv Hstep.
  destruct ev as [e now|i now|i o random now]; cbn [step] in Hstep.
  - injection Hstep as <-. unfold logAndBatch.
    set (w1 := set_vars _ w).
    destruct (ge _ _).
    + destruct (flush_keeps_scheduler (of_Z now) w1) as [-> ->].
      exact Hinv.
    + destruct (flushScheduled (vars w1)) eqn:E; cbn [negb].
      * change (flushScheduled (vars w)) with (flushScheduled (vars w1))
          in Hinv. rewrite E in Hinv |- *. exact Hinv.
      * cbn. rewrite length_app. cbn.
        change (flushScheduled (vars w)) with (flushScheduled (vars w1))
          in Hinv. rewrite E in Hinv. rewrite Hinv. reflexivity.
  - destruct (timers w !! i) as [d|] eqn:Et; [|discriminate].
    injection Hstep as <-. unfold scheduleFlush_resume.
    set (w1 := set_vars _ _).
    assert (H1 : List.length (timers w1) = 0%nat).
    { cbn. rewrite length_delete by eauto.
      destruct (flushScheduled (vars w)); [lia|].
      apply lookup_lt_Some in Et. lia. }
    destruct (0 <? List.length (batch (vars w1)))%nat.
    + destruct (flush_keeps_scheduler (of_Z now) w1) as [-> ->].
      exact H1.
    + exact H1.
  - destruct (inflight w !! i) as [toSend|]; [|discriminate].
    destruct (unit_interval random); [|discriminate].
    injection Hstep as <-. cbn [timers vars].
    rewrite flush_settle_keeps_flag. exact Hinv.
Qed.

Lemma run_keeps_timer_matches_flag (evs : list Event) :
  forall w w',
    timer_matches_flag w -> run env w evs = Some w' ->
    timer_matches_flag w'.
Proof.
  induction evs as [|ev evs IH]; intros w w' Hinv Hrun; cbn [run] in Hrun.
  - now injection Hrun as <-.
  - destruct (step env w ev) as [w1|] eqn:Es; [|discriminate].
    eapply IH; [|exact Hrun].
    eapply step_keeps_timer_matches_flag; eassumption.
Qed.

(** C9: in every state the isolate can reach, at most one flush timer
    is outstanding, and one is outstanding exactly when
    [flushScheduled] is set.  A step arms a timer only from a state
    where the flag is clear, and sets it; when a timer fires the flag
    is cleared before [flush] may run, and stays clear through it, and
    no timer is left. *)
Theorem single_flush_timer (evs : list Event) (w : World) :
  run env boot evs = Some w ->
  (List.length (timers w) <= 1)%nat /\
  (flushScheduled (vars w) = true <-> List.length (timers w) = 1%nat) /\
  (forall ev w',
      step env w ev = Some w' ->
      (List.length (timers w) < List.length (timers w'))%nat ->
      flushScheduled (vars w) = false /\
      flushScheduled (vars w') = true /\
      List.length (timers w') = 1%nat) /\
  (forall i now w',
      step env w (TimerFires i now) = Some w' ->
      flushScheduled (vars w') = false /\ timers w' = [] /\
      w' = scheduleFlush_resume env (of_Z now)
             {| vars := vars w; timers := []; inflight := inflight w;
                posts := posts w |} /\
      forall w0, flushScheduled (vars (scheduleFlush_resume env (of_Z now) w0))
                 = false).
Proof.
  intros Hrun.
  assert (Hinv : timer_matches_flag w).
  { eapply run_keeps_timer_matches_flag; [|exact Hrun]. reflexivity. }
  assert (Hresume : forall now w0,
             flushScheduled (vars (scheduleFlush_resume env now w0)) = false).
  { intros now w0. unfold scheduleFlush_resume.
    set (w1 := set_vars _ w0).
    destruct (0 <? List.length (batch (vars w1)))%nat; [|reflexivity].
    destruct (flush_keeps_scheduler now w1) as [_ ->]. reflexivity. }
  split; [|split; [|split]].
  - unfold timer_matches_flag in Hinv. rewrite Hinv.
    destruct (flushScheduled (vars w)); lia.
  - unfold timer_matches_flag in Hinv. rewrite Hinv.
    destruct (flushScheduled (vars w)); split; congruence.
  - intros ev w' Hstep Hgrow.
    pose proof (step_keeps_timer_matches_flag _ _ _ Hinv Hstep) as Hinv'.
    unfold timer_matches_flag in Hinv, Hinv'.
    destruct (flushScheduled (vars w)), (flushScheduled (vars w'));
      first [lia | repeat split; lia].
  - intros i now w' Hstep.
    pose proof (step_keeps_timer_matches_flag _ _ _ Hinv Hstep) as Hinv'.
    cbn [step] in Hstep.
    destruct (timers w !! i) as [d|] eqn:Et; [|discriminate].
    injection Hstep as <-.
    assert (Hdel : delete i (timers w) = []).
    { apply nil_length_inv. rewrite length_delete by eauto.
      unfold timer_matches_flag in Hinv. rewrite Hinv.
      destruct (flushScheduled (vars w)); reflexivity. }
    rewrite Hdel in *.
    split; [apply Hresume|]. split; [|split; [reflexivity|apply Hresume]].
    unfold timer_matches_flag in Hinv'. rewrite Hresume in Hinv'.
    now apply nil_length_inv.
Qed.

End SinkClient.

(* ===================================================================== *)
(** ** Pipeline A: backoff *)
(* ===================================================================== *)

Section Backoff.
Import JS PipelineA.

Variable env : Env.

(** The jitter [Math.floor(Math.random() * 500)] is an integer of
    [0, 500). *)
Lemma jitter_range (random : Q) :
  unit_interval random = true ->
  exists j : Z,
    Math_floor (mul (Fin random) (Fin 500)) = of_Z j /\ 0 <= j < 500.
Proof.
  unfold unit_interval. rewrite andb_true_iff, negb_true_iff.
  intros [H0 H1]. apply Qle_bool_iff in H0.
  assert (H1' : (random < 1)%Q).
  { apply Qnot_le_lt. intros Hle. apply Qle_bool_iff in Hle. congruence. }
  cbn [mul]. rewrite of_real_small.
  2:{ apply Qle_trans with 0%Q; [discriminate|].
      apply Qmult_le_0_compat; [exact H0 | discriminate]. }
  2:{ apply Qle_trans with (1 * 500)%Q; [|discriminate].
      apply Qmult_le_compat_r; [now apply Qlt_le_weak | discriminate]. }
  cbn [Math_floor]. exists (Qfloor (Qred (random * 500))).
  split; [reflexivity|].
  set (x := Qred (random * 500)).
  assert (Hx : x == random * 500) by apply Qred_correct.
  split.
  - change 0 with (Qfloor 0). apply Qfloor_resp_le. rewrite Hx.
    apply Qmult_le_0_compat; [exact H0 | discriminate].
  - rewrite Zlt_Qlt. apply Qle_lt_trans with x; [apply Qfloor_le|].
    rewrite Hx. change (inject_Z 500) with (1 * 500)%Q.
    apply Qmult_lt_compat_r; [reflexivity | exact H1'].
Qed.

(** One failure: [backoffMs] does not shrink and stays under the cap. *)
Lemma backoff_and_requeue_range (toSend : list LogEvent) (random : Q)
    (now : number) (s : State) :
  ordered_backoff (cfg env) ->
  backoff_in_range (cfg env) s ->
  let s' := backoff_and_requeue (cfg env) toSend random now s in
  le (backoffMs s) (backoffMs s') = true /\
  backoff_in_range (cfg env) s'.
Proof.
  intros [Hb0 Hbm] [Hs0 Hsm]. cbv zeta.
  unfold backoff_in_range, backoff_and_requeue.
  cbn [backoffMs set_batch set_backoff].
  destruct (cfg_finite env) as (_ & _ & Hfb & Hfm).
  destruct (backoffBase (cfg env)) as [| | |b]; try discriminate.
  destruct (backoffMax (cfg env)) as [| | |m]; try discriminate.
  destruct (backoffMs s) as [| | |q]; try discriminate.
  apply le_Fin in Hb0, Hbm, Hs0, Hsm.
  cbn [truthy].
  destruct (Qeq_bool q 0) eqn:Eq; cbn [negb].
  - apply Qeq_bool_iff in Eq.
    rewrite !le_Fin. repeat split; try assumption.
    rewrite Eq. exact Hb0.
  - cbn [mul].
    destruct (of_real_cases (q * 2)) as [[Hr _]|[[Hr Hneg]|Hr]];
      rewrite Hr.
    + cbn. rewrite !Qle_bool_iff.
      repeat split; try assumption; try apply Qle_refl.
      now apply Qle_trans with q.
    + exfalso. pose proof overflow_bound_Q as Hbig.
      assert (Hq2 : (0 <= q * 2)%Q)
        by (apply Qmult_le_0_compat; [exact Hs0 | discriminate]).
      apply (Qlt_irrefl 0). apply Qle_lt_trans with (q * 2)%Q; [exact Hq2|].
      apply Qle_lt_trans with (- inject_Z overflow_bound)%Q; [exact Hneg|].
      apply Qlt_trans with (- inject_Z 1000)%Q;
        [now apply Qopp_lt_compat | reflexivity].
    + assert (Hx : Qred (q * 2) == q * 2) by apply Qred_correct.
      set (x := Qred (q * 2)) in *.
      assert (Hqx : (q <= x)%Q).
      { rewrite Hx. lra. }
      cbn [Math_min].
      destruct (lt (Fin x) (Fin m)) eqn:El.
      * apply lt_Fin in El. rewrite !le_Fin.
        repeat split; try assumption.
        -- now apply Qle_trans with q.
        -- now apply Qlt_le_weak.
      * rewrite !le_Fin. repeat split; try assumption.
        -- now apply Qle_trans with q.
        -- apply Qle_refl.
Qed.
(** [flush] leaves the backoff variables alone. *)
Lemma flush_keeps_backoff (now : number) (w : World) :
  backoffMs (vars (flush env now w)) = backoffMs (vars w) /\
  backoffUntil (vars (flush env now w)) = backoffUntil (vars w).
Proof.
  unfold flush, flush_begin.
  destruct (lt now (backoffUntil (vars w))); [split; reflexivity|].
  destruct (List.length (batch (vars w)) =? 0)%nat; split; reflexivity.
Qed.

(** Only a settling POST changes the backoff variables. *)
Lemma step_keeps_backoff (w w' : World) (ev : Event) :
  is_settle ev = false -> step env w ev = Some w' ->
  backoffMs (vars w') = backoffMs (vars w) /\
  backoffUntil (vars w') = backoffUntil (vars w).
Proof.
  intros Hev Hstep.
  destruct ev as [e now|i now|i o random now]; cbn [step] in Hstep;
    [| |discriminate].
  - injection Hstep as <-. unfold logAndBatch.
    set (w1 := set_vars _ w).
    destruct (ge _ _); [apply (flush_keeps_backoff (of_Z now) w1)|].
    destruct (negb (flushScheduled (vars w1))); split; reflexivity.
  - destruct (timers w !! i); [|discriminate].
    injection Hstep as <-. unfold scheduleFlush_resume.
    set (w1 := set_vars _ _).
    destruct (0 <? List.length (batch (vars w1)))%nat;
      [apply (flush_keeps_backoff (of_Z now) w1) | split; reflexivity].
Qed.

Lemma step_keeps_backoff_in_range (w w' : World) (ev : Event) :
  ordered_backoff (cfg env) ->
  backoff_in_range (cfg env) (vars w) -> step env w ev = Some w' ->
  backoff_in_range (cfg env) (vars w').
Proof.
  intros Hcfg Hinv Hstep.
  destruct (is_settle ev) eqn:Ev.
  - destruct ev as [| |i o random now]; try discriminate.
    cbn [step] in Hstep.
    destruct (inflight w !! i) as [toSend|]; [|discriminate].
    destruct (unit_interval random); [|discriminate].
    injection Hstep as <-. cbn [vars].
    assert (Hzero : backoff_in_range (cfg env)
                      (set_backoff (Fin 0) (Fin 0) (vars w))).
    { destruct Hcfg as [Hb0 Hbm]. split; [reflexivity|].
      cbn [set_backoff backoffMs].
      destruct (cfg_finite env) as (_ & _ & Hfb & Hfm).
      destruct (backoffBase (cfg env)) as [| | |b]; try discriminate.
      destruct (backoffMax (cfg env)) as [| | |m]; try discriminate.
      apply le_Fin in Hb0, Hbm. apply le_Fin.
      now apply Qle_trans with b. }
    unfold flush_settle. destruct o as [status|].
    + destruct ((status =? 429) || (status =? 403)); [|exact Hzero].
      now apply backoff_and_requeue_range.
    + now apply backoff_and_requeue_range.
  - destruct (step_keeps_backoff _ _ _ Ev Hstep) as [Hms _].
    unfold backoff_in_range. rewrite Hms. exact Hinv.
Qed.

Lemma run_keeps_backoff_in_range (evs : list Event) :
  ordered_backoff (cfg env) ->
  forall w w',
    backoff_in_range (cfg env) (vars w) -> run env w evs = Some w' ->
    backoff_in_range (cfg env) (vars w').
Proof.
  intros Hcfg.
  induction evs as [|ev evs IH]; intros w w' Hinv Hrun; cbn [run] in Hrun.
  - now injection Hrun as <-.
  - destruct (step env w ev) as [w1|] eqn:Es; [|discriminate].
    eapply IH; [|exact Hrun].
    eapply step_keeps_backoff_in_range; eassumption.
Qed.

(** C5: what a settled POST does to the backoff, in any state.  A failure
    that finds [backoffMs] at 0 (the first of a streak) sets it to the
    configured base as it is: the cap [Math.min(.., backoffMax)] is on the
    doubling arm only, so with a base above the configured maximum
    [backoffMs] ends above the maximum.  A failure that finds it non-zero
    sets it to the smaller of its double and the maximum, so one that
    finds it above the maximum lowers it.  Every failure sets
    [backoffUntil] to the current time plus the new [backoffMs] plus an
    integer jitter of [0, 500), and a success resets [backoffMs] and
    [backoffUntil] to 0. *)
Theorem first_failure_is_not_capped
    (toSend : list LogEvent) (o : FetchOutcome) (random : Q) (now : number)
    (s : State) :
  unit_interval random = true ->
  let s' := flush_settle env toSend o random now s in
  (sink_failure o = true ->
     (truthy (backoffMs s) = false ->
        backoffMs s' = backoffBase (cfg env) /\
        (lt (backoffMax (cfg env)) (backoffBase (cfg env)) = true ->
         gt (backoffMs s') (backoffMax (cfg env)) = true /\
         le (backoffMs s') (backoffMax (cfg env)) = false)) /\
     (truthy (backoffMs s) = true ->
        backoffMs s'
        = Math_min (mul (backoffMs s) (Fin 2)) (backoffMax (cfg env)) /\
        (lt (backoffMax (cfg env)) (backoffMs s) = true ->
         lt (backoffMs s') (backoffMs s) = true /\
         le (backoffMs s) (backoffMs s') = false)) /\
     exists jitter : Z,
       0 <= jitter < 500 /\
       backoffUntil s' = add (add now (backoffMs s')) (of_Z jitter)) /\
  (sink_failure o = false ->
     backoffMs s' = Fin 0 /\ backoffUntil s' = Fin 0).
Proof.
  intros Hr. cbv zeta. split.
  - intros Ho. rewrite (flush_settle_failure env) by exact Ho.
    unfold backoff_and_requeue.
    cbn [backoffUntil backoffMs set_batch set_backoff].
    destruct (cfg_finite env) as (_ & _ & Hfb & Hfm).
    destruct (backoffBase (cfg env)) as [| | |b]; try discriminate.
    destruct (backoffMax (cfg env)) as [| | |m]; try discriminate.
    split; [|split].
    + intros Hz. rewrite Hz. split; [reflexivity|].
      intros Hlt. split; [exact Hlt|].
      apply lt_Fin in Hlt. cbn [le].
      apply not_true_is_false. intros Hle. apply Qle_bool_iff in Hle.
      now apply (Qlt_irrefl m), Qlt_le_trans with b.
    + intros Hnz. rewrite Hnz. split; [reflexivity|].
      destruct (backoffMs s) as [| | |q]; try discriminate.
      * (* +Infinity: its double is +Infinity, the smaller is the cap *)
        intros _. split; reflexivity.
      * intros Hlt. apply lt_Fin in Hlt. cbn [mul].
        assert (Hcap : forall x,
                   lt (Fin x) (Fin q) = true ->
                   lt (Fin x) (Fin q) = true /\ le (Fin q) (Fin x) = false).
        { intros x Hx. split; [exact Hx|]. apply lt_Fin in Hx. cbn [le].
          apply not_true_is_false. intros Hle. apply Qle_bool_iff in Hle.
          now apply (Qlt_irrefl x), Qlt_le_trans with q. }
        destruct (of_real_cases (q * 2)) as [[Hx _]|[[Hx _]|Hx]];
          rewrite Hx.
        -- cbn [Math_min lt]. apply Hcap. now apply lt_Fin.
        -- cbn [Math_min lt]. split; reflexivity.
        -- cbn [Math_min]. destruct (lt (Fin (Qred (q * 2))) (Fin m)) eqn:El.
           ++ apply Hcap. apply lt_Fin. apply lt_Fin in El.
              now apply Qlt_trans with m.
           ++ apply Hcap. now apply lt_Fin.
    + destruct (jitter_range random Hr) as (j & Hj & Hjr).
      exists j. split; [exact Hjr|]. rewrite Hj. reflexivity.
  - intros Ho. rewrite (flush_settle_success env) by exact Ho.
    split; reflexivity.
Qed.

(** When the configuration has [0 <= backoffBase <= backoffMax], then in
    every state the isolate can reach a failed flush leaves [backoffMs]
    no smaller than it was and no larger than the configured maximum, and
    sets [backoffUntil] to the current time plus the new [backoffMs] plus
    an integer jitter of [0, 500); a flush that succeeds resets
    [backoffMs] and [backoffUntil] to 0; and no other step touches either
    variable. *)
Theorem backoff_monotone_capped_reset (evs : list Event) (w : World) :
  ordered_backoff (cfg env) ->
  run env boot evs = Some w ->
  backoff_in_range (cfg env) (vars w) /\
  (forall i o random now w',
      step env w (FetchSettles i o random now) = Some w' ->
      (sink_failure o = true ->
         le (backoffMs (vars w)) (backoffMs (vars w')) = true /\
         le (backoffMs (vars w')) (backoffMax (cfg env)) = true /\
         exists jitter : Z,
           0 <= jitter < 500 /\
           backoffUntil (vars w')
           = add (add (of_Z now) (backoffMs (vars w'))) (of_Z jitter)) /\
      (sink_failure o = false ->
         backoffMs (vars w') = Fin 0 /\ backoffUntil (vars w') = Fin 0)) /\
  (forall ev w',
      is_settle ev = false -> step env w ev = Some w' ->
      backoffMs (vars w') = backoffMs (vars w) /\
      backoffUntil (vars w') = backoffUntil (vars w)).
Proof.
  intros Hcfg Hrun.
  assert (Hinv : backoff_in_range (cfg env) (vars w)).
  { eapply run_keeps_backoff_in_range; [exact Hcfg| |exact Hrun].
    destruct Hcfg as [Hb0 Hbm]. split; [reflexivity|].
    cbn [boot vars initial backoffMs].
    destruct (cfg_finite env) as (_ & _ & Hfb & Hfm).
    destruct (backoffBase (cfg env)) as [| | |b]; try discriminate.
    destruct (backoffMax (cfg env)) as [| | |m]; try discriminate.
    apply le_Fin in Hb0, Hbm. apply le_Fin.
    now apply Qle_trans with b. }
  split; [exact Hinv|]. split; [|intros ev w'; apply step_keeps_backoff].
  intros i o random now w' Hstep. cbn [step] in Hstep.
  destruct (inflight w !! i) as [toSend|]; [|discriminate].
  destruct (unit_interval random) eqn:Hr; [|discriminate].
  injection Hstep as <-. cbn [vars].
  split.
  - intros Ho. rewrite (flush_settle_failure env) by exact Ho.
    destruct (backoff_and_requeue_range toSend random (of_Z now) (vars w)
                Hcfg Hinv) as [Hmono [_ Hcap]].
    split; [exact Hmono|]. split; [exact Hcap|].
    destruct (jitter_range random Hr) as (j & Hj & Hjr).
    exists j. split; [exact Hjr|].
    unfold backoff_and_requeue. cbn [backoffUntil backoffMs set_batch set_backoff].
    rewrite Hj. reflexivity.
  - intros Ho. rewrite (flush_settle_success env) by exact Ho.
    split; reflexivity.
Qed.

End Backoff.

(* ===================================================================== *)
(** ** Pipeline A: requeue order *)
(* ===================================================================== *)

Section Requeue.
Import JS PipelineA.

Variable env : Env.

(** A call of [flush] either issues no POST and leaves the queue and the
    pending flushes as they are, or issues one. *)
Lemma flush_posts (now : number) (w : World) :
  (posts (flush env now w) = posts w /\
   batch (vars (flush env now w)) = batch (vars w) /\
   inflight (flush env now w) = inflight w) \/
  List.length (posts (flush env now w)) = S (List.length (posts w)).
Proof.
  unfold flush, flush_begin.
  destruct (lt now (backoffUntil (vars w))); [left; repeat split|].
  destruct (batch (vars w)) as [|e l] eqn:Eb; cbn [List.length Nat.eqb].
  - left. cbn. repeat split.
  - right. cbn [posts]. rewrite length_app. cbn. lia.
Qed.

(** A step other than a settling POST either appends what it captured
    and issues no POST, or issues one. *)
Lemma step_posts (w w' : World) (ev : Event) :
  is_settle ev = false -> step env w ev = Some w' ->
  (posts w' = posts w /\
   batch (vars w') = batch (vars w) ++ captured [ev] /\
   inflight w' = inflight w) \/
  List.length (posts w') = S (List.length (posts w)).
Proof.
  intros Hev Hstep.
  destruct ev as [e now|i now|i o random now]; cbn [step] in Hstep;
    [| |discriminate].
  - injection Hstep as <-. unfold logAndBatch.
    set (w1 := set_vars _ w).
    destruct (ge _ _).
    + destruct (flush_posts (of_Z now) w1) as [(Hp & Hb & Hi)|Hp];
        [left | right; exact Hp].
      rewrite Hp, Hb, Hi. repeat split.
    + destruct (negb (flushScheduled (vars w1))); left; repeat split.
  - destruct (timers w !! i); [|discriminate].
    injection Hstep as <-. unfold scheduleFlush_resume.
    set (w1 := set_vars _ _).
    destruct (0 <? List.length (batch (vars w1)))%nat.
    + destruct (flush_posts (of_Z now) w1) as [(Hp & Hb & Hi)|Hp];
        [left | right; exact Hp].
      rewrite Hp, Hb, Hi. cbn. rewrite app_nil_r. repeat split.
    + left. cbn. rewrite app_nil_r. repeat split.
Qed.

(** No step withdraws a POST. *)
Lemma step_posts_grow (w w' : World) (ev : Event) :
  step env w ev = Some w' ->
  (List.length (posts w) <= List.length (posts w'))%nat.
Proof.
  intros Hstep. destruct (is_settle ev) eqn:Ev.
  - destruct ev as [| |i o random now]; try discriminate.
    cbn [step] in Hstep.
    destruct (inflight w !! i); [|discriminate].
    destruct (unit_interval random); [|discriminate].
    injection Hstep as <-. cbn. lia.
  - destruct (step_posts _ _ _ Ev Hstep) as [(Hp & _)|Hp]; [rewrite Hp|]; lia.
Qed.

Lemma run_posts_grow (evs : list Event) :
  forall w w',
    run env w evs = Some w' ->
    (List.length (posts w) <= List.length (posts w'))%nat.
Proof.
  induction evs as [|ev evs IH]; intros w w' Hrun; cbn [run] in Hrun.
  - injection Hrun as <-. lia.
  - destruct (step env w ev) as [w1|] eqn:Es; [|discriminate].
    pose proof (step_posts_grow _ _ _ Es). pose proof (IH _ _ Hrun). lia.
Qed.

Lemma captured_cons (ev : Event) (evs : list Event) :
  captured (ev :: evs) = captured [ev] ++ captured evs.
Proof. unfold captured. cbn [flat_map]. now rewrite app_nil_r. Qed.

(** Over a run in which no POST settles and none is issued, the queue
    grows by exactly what was captured, in order, and the pending flushes
    stay as they are. *)
Lemma run_appends (evs : list Event) :
  forall w w',
    run env w evs = Some w' ->
    existsb is_settle evs = false ->
    posts w' = posts w ->
    batch (vars w') = batch (vars w) ++ captured evs /\
    inflight w' = inflight w.
Proof.
  induction evs as [|ev evs IH]; intros w w' Hrun Hns Hposts;
    cbn [run] in Hrun.
  - injection Hrun as <-. cbn. now rewrite app_nil_r.
  - destruct (step env w ev) as [w1|] eqn:Es; [|discriminate].
    cbn [existsb] in Hns. apply orb_false_iff in Hns. destruct Hns as [Hev Hns].
    pose proof (run_posts_grow _ _ _ Hrun) as Hgrow.
    destruct (step_posts _ _ _ Hev Es) as [(Hp & Hb & Hi)|Hp].
    + destruct (IH _ _ Hrun Hns) as [Hb' Hi']; [congruence|].
      rewrite (captured_cons ev evs), Hb', Hb, Hi', Hi, <- app_assoc.
      split; reflexivity.
    + exfalso. rewrite Hposts in Hgrow. lia.
Qed.

(** C6 (as the code has it): take a flush that issued its POST with
    outbox [toSend], the queue as it stood.  If, until that POST settles,
    no other POST settles and no other flush issues one, then on failure
    the queue becomes the outbox in its order followed by exactly the
    events captured meanwhile, in their order. *)
Theorem requeue_keeps_order
    (w0 : World) (now : number) (s1 : State) (toSend : list LogEvent)
    (evs : list Event) (w2 : World)
    (o : FetchOutcome) (random : Q) (now' : Z) :
  flush_begin env now (vars w0) = Awaiting s1 toSend ->
  run env (flush env now w0) evs = Some w2 ->
  existsb is_settle evs = false ->
  posts w2 = posts (flush env now w0) ->
  sink_failure o = true ->
  unit_interval random = true ->
  toSend = batch (vars w0) /\
  batch (vars (flush env now w0)) = [] /\
  exists w3,
    step env w2 (FetchSettles (List.length (inflight w0)) o random now')
    = Some w3 /\
    batch (vars w3) = toSend ++ captured evs.
Proof.
  intros Hbegin Hrun Hns Hposts Ho Hr.
  assert (Hshape : toSend = batch (vars w0) /\
                   batch (vars (flush env now w0)) = [] /\
                   inflight (flush env now w0) = inflight w0 ++ [toSend]).
  { unfold flush. rewrite Hbegin. cbn [vars inflight].
    unfold flush_begin in Hbegin.
    destruct (lt now (backoffUntil (vars w0))); [discriminate|].
    destruct (List.length (batch (vars w0)) =? 0)%nat; [discriminate|].
    injection Hbegin as <- <-. repeat split. }
  destruct Hshape as (Hout & Hempty & Hpending).
  destruct (run_appends _ _ _ Hrun Hns Hposts) as [Hb Hi].
  split; [exact Hout|]. split; [exact Hempty|].
  cbn [step].
  assert (Hlook : inflight w2 !! List.length (inflight w0) = Some toSend).
  { rewrite Hi, Hpending. now apply list_lookup_middle. }
  rewrite Hlook, Hr. eexists. split; [reflexivity|].
  cbn [vars]. rewrite (flush_settle_failure env) by exact Ho.
  unfold backoff_and_requeue. cbn [batch set_batch].
  rewrite Hb, Hempty. reflexivity.
Qed.

End Requeue.

(* ===================================================================== *)
(** ** The theorems at work on concrete traffic *)
(* ===================================================================== *)

Section ScenariosB.
Import JS PipelineB Scenarios.B.

(** An upstream that always answers 500, on a request without a body:
    four POSTs, then 500. *)
Lemma fetch_5xx_four_calls_witness :
  exists trace,
    (forall k,
        fetch no_hmac (always 500) (RETRIES + 2 + k)
          Samples.B.traced_request env_defaults (1 # 2)
        = Some ({| status := 500; payload := None |}, trace)) /\
    List.length trace = 4%nat /\
    map fst trace = [1; 2; 3; 4]%nat.
Proof.
  apply (fetch_5xx_makes_retries_plus_two_calls no_hmac (always 500)
           Samples.B.traced_request env_defaults (1 # 2) (fun _ => 500)).
  - discriminate.
  - vm_compute. reflexivity.
  - reflexivity.
  - intros _. discriminate.
Defined.

(** C2, refuted as stated: with the rate configured as 0 and the draw 0,
    the call is admitted and reaches the upstream. *)
Lemma sample_rate_zero_admits_draw_zero :
  configured_rate env_rate_zero = Fin 0 /\
  unit_interval 0 = true /\
  admitted env_rate_zero 0 = true /\
  observed (fetch no_hmac (always 200) 4 request env_rate_zero 0)
  = Some (200, 1%nat).
Proof. vm_compute. repeat split. Qed.

(** The draw 1/2 under the rates 0, 1 and an unparsable one. *)
Lemma sampling_gate_boundaries_witness :
  (0 <= 1 # 2)%Q /\ (1 # 2 < 1)%Q /\
  admitted env_rate_zero (1 # 2) = false /\
  admitted env_rate_one (1 # 2) = true /\
  admitted env_rate_unparsable (1 # 2) = false /\
  fetch no_hmac (always 200) 4 request env_rate_zero (1 # 2)
  = Some ({| status := 204; payload := None |}, []).
Proof.
  assert (H0 : (0 <= 1 # 2)%Q) by discriminate.
  assert (H1 : (1 # 2 < 1)%Q) by reflexivity.
  assert (Hne : ~ (1 # 2 == 0)%Q) by discriminate.
  destruct (sampling_gate_boundaries no_hmac (always 200) env_rate_zero
              (1 # 2) H0 H1) as (Hzero & _ & _ & Hrej).
  destruct (sampling_gate_boundaries no_hmac (always 200) env_rate_one
              (1 # 2) H0 H1) as (_ & Hone & _ & _).
  destruct (sampling_gate_boundaries no_hmac (always 200)
              env_rate_unparsable (1 # 2) H0 H1) as (_ & _ & Hnan & _).
  assert (Hz : admitted env_rate_zero (1 # 2) = false).
  { apply not_true_is_false. intros E. apply Hne.
    now apply (Hzero 0%Q eq_refl (Qeq_refl 0)). }
  split; [exact H0|]. split; [exact H1|]. split; [exact Hz|].
  split; [exact (Hone 1%Q eq_refl (Qeq_refl 1))|].
  split.
  - destruct (Hnan eq_refl) as [_ Hsame].
    now rewrite (Hsame env_rate_zero 0%Q eq_refl (Qeq_refl 0)).
  - apply (Hrej Hz). discriminate.
Defined.

(** The override ["abc"]. *)
Lemma timeoutMs_unparsable_witness :
  REQUEST_TIMEOUT_MS env_timeout_unparsable = Some "abc" /\
  parseInt "abc" = NaN /\
  timeoutMs env_timeout_unparsable = NaN /\
  timeoutMs env_timeout_unparsable <> Fin 6000.
Proof.
  split; [reflexivity|]. split; [reflexivity|].
  apply (timeoutMs_unparsable_is_NaN env_timeout_unparsable "abc");
    reflexivity.
Defined.

(** C8, refuted as stated: [user-agent] is in the redact set and on the
    request, yet goes upstream with the forwarder's own string, not the
    redaction marker. *)
Lemma redacted_user_agent_is_overwritten :
  In "user-agent" (redact_set env_redact_user_agent) /\
  Headers.has (headers request) "user-agent" = true /\
  Headers.get (fst (forward no_hmac env_redact_user_agent request))
    "user-agent" = Some UA /\
  Some UA <> Some REDACTED /\
  option_map
    (fun p => map (fun c => Headers.get (call_headers (snd c)) "user-agent")
                (snd p))
    (fetch no_hmac (always 200) 4 request env_redact_user_agent 0)
  = Some [Some "cf-forwarder/1.2"].
Proof.
  split; [vm_compute; auto|].
  split; [vm_compute; reflexivity|].
  split; [vm_compute; reflexivity|].
  split; [discriminate|].
  vm_compute. reflexivity.
Qed.

(** A key configured with white space around it, on a request that
    carries a cookie: the cookie goes upstream redacted, the key
    trimmed. *)
Lemma redaction_and_forced_headers_witness :
  exists forwardHeaders bodyForSend,
    Platform.forward_checked (fun key data => Some (no_hmac key data))
      Samples.B.env_padded_key Samples.B.traced_request
    = Some (forwardHeaders, bodyForSend) /\
    Headers.get forwardHeaders "cookie" = Some REDACTED /\
    Headers.get forwardHeaders "x-tenant-key" = Some "key 1" /\
    Headers.get forwardHeaders "user-agent" = Some "cf-forwarder/1.2".
Proof.
  destruct (Platform.forward_checked (fun key data => Some (no_hmac key data))
              Samples.B.env_padded_key Samples.B.traced_request)
    as [[forwardHeaders bodyForSend]|] eqn:E; [|discriminate E].
  exists forwardHeaders, bodyForSend. split; [reflexivity|].
  destruct (redaction_and_forced_headers (always 200) _
              Samples.B.env_padded_key Samples.B.traced_request
              forwardHeaders bodyForSend E)
    as (Hred & Htenant & Hua & _).
  split; [|split; [exact Htenant | exact Hua]].
  apply Hred.
  - vm_compute. auto.
  - vm_compute. reflexivity.
  - discriminate.
  - discriminate.
  - discriminate.
Defined.

(** A redact list with a name that is no header name: the handler throws
    before any POST. *)
Lemma invalid_redact_name_throws (fuel : nat) :
  Platform.valid_name "bad name" = false /\
  In "bad name" (redact_set Samples.B.env_bad_redact_name) /\
  Platform.fetch_checked (fun key data => Some (no_hmac key data))
    (always 200) fuel Samples.B.traced_request
    Samples.B.env_bad_redact_name 0
  = Some Platform.Threw.
Proof.
  split; [reflexivity|]. split; [vm_compute; auto|].
  reflexivity.
Qed.

End ScenariosB.

Section ScenariosA.
Import JS PipelineA Scenarios.A.

(** A 500 is taken as delivered; a 429 requeues. *)
Lemma flush_settle_classification_witness :
  batch (flush_settle env_defaults [a] (Responded 500) 0 (of_Z 10) initial)
  = [] /\
  batch (flush_settle env_defaults [a] (Responded 429) 0 (of_Z 10) initial)
  = [a].
Proof.
  destruct (flush_settle_classification env_defaults [a] (Responded 500) 0
              (of_Z 10) initial) as (_ & _ & Hok & _).
  destruct (flush_settle_classification env_defaults [a] (Responded 429) 0
              (of_Z 10) initial) as (_ & Hfail & _ & _).
  split.
  - exact (proj1 (Hok eq_refl)).
  - exact (proj2 (Hfail eq_refl)).
Defined.

(** A base of 5000 with a maximum of 1000, over whole runs: the first
    failure puts [backoffMs] at 5000, above the maximum, and the next
    failure brings it down to 1000. *)
Lemma backoff_base_above_max_exceeds_then_shrinks :
  backoffBase (cfg env_base_above_max) = Fin 5000 /\
  backoffMax (cfg env_base_above_max) = Fin 1000 /\
  option_map (fun w => backoffMs (vars w))
    (run env_base_above_max boot first_failure) = Some (Fin 5000) /\
  le (Fin 5000) (backoffMax (cfg env_base_above_max)) = false /\
  option_map (fun w => backoffMs (vars w))
    (run env_base_above_max boot (first_failure ++ second_failure))
  = Some (Fin 1000) /\
  le (Fin 5000) (Fin 1000) = false.
Proof. vm_compute. repeat split. Qed.

(** A base of 5000 with a maximum of 1000: 5000 after the first failed
    POST, 1000 after the second. *)
Lemma first_failure_is_not_capped_witness :
  let s1 :=
    flush_settle env_base_above_max [a] (Responded 429) 0 (of_Z 20050)
      initial in
  let s2 :=
    flush_settle env_base_above_max [b] Rejected 0 (of_Z 50050) s1 in
  unit_interval 0 = true /\
  backoffMax (cfg env_base_above_max) = Fin 1000 /\
  backoffMs s1 = Fin 5000 /\
  le (backoffMs s1) (backoffMax (cfg env_base_above_max)) = false /\
  backoffMs s2 = Fin 1000 /\
  le (backoffMs s1) (backoffMs s2) = false.
Proof.
  cbv zeta.
  set (s1 := flush_settle env_base_above_max [a] (Responded 429) 0
               (of_Z 20050) initial).
  destruct (first_failure_is_not_capped env_base_above_max [a]
              (Responded 429) 0 (of_Z 20050) initial eq_refl)
    as [Hfail _].
  destruct (Hfail eq_refl) as (Hfirst & _ & _).
  destruct (Hfirst eq_refl) as [Hbase Habove].
  destruct (Habove eq_refl) as [_ Hexceeds].
  destruct (first_failure_is_not_capped env_base_above_max [b]
              Rejected 0 (of_Z 50050) s1 eq_refl)
    as [Hfail' _].
  destruct (Hfail' eq_refl) as (_ & Hnext & _).
  destruct (Hnext eq_refl) as [Hmin Hlower].
  destruct (Hlower eq_refl) as [_ Hshrinks].
  split; [reflexivity|]. split; [reflexivity|].
  split; [exact Hbase|]. split; [exact Hexceeds|].
  split; [exact Hmin | exact Hshrinks].
Defined.

(** The default base and maximum: 2000, then 4000. *)
Lemma backoff_monotone_capped_reset_witness :
  exists w w',
    run env_defaults boot first_failure = Some w /\
    run env_defaults w second_failure = Some w' /\
    backoffMs (vars w) = Fin 2000 /\
    backoffMs (vars w') = Fin 4000 /\
    backoff_in_range (cfg env_defaults) (vars w').
Proof.
  assert (Hcfg : ordered_backoff (cfg env_defaults))
    by (split; reflexivity).
  eexists. eexists.
  split; [vm_compute; reflexivity|].
  split; [vm_compute; reflexivity|].
  split; [reflexivity|]. split; [reflexivity|].
  apply (backoff_monotone_capped_reset env_defaults
           (first_failure ++ second_failure) _ Hcfg).
  vm_compute. reflexivity.
Defined.

(** C6, refuted as stated: with a batch ceiling of 1, [b] is captured
    while the POST of [a] is pending and leaves at once in a POST of its
    own; when the POST of [a] fails the queue is [a] alone, and when the
    POST of [b] fails too the queue is [b; a]. *)
Lemma requeue_with_overlapping_flush_loses_order :
  option_map (fun w => (batch (vars w), inflight w))
    (run env_batch_of_one boot [Capture a 0]) = Some ([], [[a]]) /\
  captured [Capture b 1] = [b] /\
  option_map (fun w => batch (vars w))
    (run env_batch_of_one boot
       [Capture a 0; Capture b 1; FetchSettles 0 (Responded 429) 0 2])
  = Some [a] /\
  [a] <> [a] ++ [b] /\
  option_map (fun w => batch (vars w))
    (run env_batch_of_one boot
       [Capture a 0; Capture b 1; FetchSettles 0 (Responded 429) 0 2;
        FetchSettles 0 (Responded 429) 0 3])
  = Some [b; a].
Proof.
  split; [vm_compute; reflexivity|].
  split; [reflexivity|].
  split; [vm_compute; reflexivity|].
  split; [discriminate|].
  vm_compute. reflexivity.
Qed.

(** [a] and [b] are queued, their POST fails after [c] was captured:
    the queue is [a; b; c]. *)
Lemma requeue_keeps_order_witness :
  exists w0 w2 w3,
    run env_defaults boot [Capture a 0; Capture b 1] = Some w0 /\
    run env_defaults (flush env_defaults (of_Z 2) w0) [Capture c 3]
    = Some w2 /\
    step env_defaults w2 (FetchSettles 0 (Responded 429) 0 4) = Some w3 /\
    batch (vars w3) = [a; b; c].
Proof.
  eexists. eexists.
  assert (Hrun0 : run env_defaults boot [Capture a 0; Capture b 1]
                  = Some (logAndBatch env_defaults b (of_Z 1)
                            (logAndBatch env_defaults a (of_Z 0) boot)))
    by reflexivity.
  set (w0 := logAndBatch env_defaults b (of_Z 1)
               (logAndBatch env_defaults a (of_Z 0) boot)) in *.
  set (w2 := logAndBatch env_defaults c (of_Z 3)
               (flush env_defaults (of_Z 2) w0)).
  destruct (requeue_keeps_order env_defaults w0 (of_Z 2)
              (set_batch [] (vars w0)) [a; b] [Capture c 3] w2
              (Responded 429) 0 4)
    as (_ & _ & w3 & Hstep & Hbatch).
  - vm_compute. reflexivity.
  - reflexivity.
  - reflexivity.
  - vm_compute. reflexivity.
  - reflexivity.
  - reflexivity.
  - exists w3. split; [exact Hrun0|]. split; [reflexivity|].
    split; [exact Hstep | exact Hbatch].
Defined.

(** A flush at boot, and one inside the backoff window of a failure. *)
Lemma flush_noop_witness :
  flush env_defaults (of_Z 5) boot = boot /\
  exists w,
    run env_defaults boot first_failure = Some w /\
    lt (of_Z 21000) (backoffUntil (vars w)) = true /\
    flush env_defaults (of_Z 21000) w = w.
Proof.
  split.
  - apply (flush_noop env_defaults (of_Z 5) boot). left. reflexivity.
  - eexists. split; [vm_compute; reflexivity|].
    split; [vm_compute; reflexivity|].
    apply flush_noop. right. vm_compute. reflexivity.
Defined.

(** Three captures arm one timer. *)
Lemma single_flush_timer_witness :
  exists w,
    run env_defaults boot [Capture a 0; Capture b 1; Capture c 2] = Some w /\
    List.length (timers w) = 1%nat /\
    flushScheduled (vars w) = true.
Proof.
  eexists. split; [vm_compute; reflexivity|].
  split; [reflexivity|].
  apply (single_flush_timer env_defaults
           [Capture a 0; Capture b 1; Capture c 2]).
  - vm_compute. reflexivity.
  - reflexivity.
Defined.

End ScenariosA.

(* ===================================================================== *)
(** ** Pipeline A: what the configuration resolves to *)
(* ===================================================================== *)

Section ConfigResolution.
Import JS PipelineA Capture.

Lemma toNumber_unusable (v : option string) (fallback : number) :
  unusable v -> toNumber v fallback = fallback.
Proof.
  intros [->|(s & -> & H)]; [reflexivity|].
  unfold toNumber. now rewrite H.
Qed.

Lemma toNumber_usable (s : string) (fallback : number) :
  Number_isFinite (parseInt s) = true ->
  toNumber (Some s) fallback = parseInt s.
Proof. intros H. unfold toNumber. now rewrite H. Qed.

(** Whatever the environment holds, the four numeric fields of [cfg] are
    finite numbers; an override that is absent or does not parse to a
    finite number leaves the documented default (20000, 200, 2000,
    60000), and one that does parse is taken as parsed. *)
Theorem cfg_numeric_fields (env : Env) :
  let c := cfg env in
  (Number_isFinite (batchMs c) = true /\
   Number_isFinite (batchMax c) = true /\
   Number_isFinite (backoffBase c) = true /\
   Number_isFinite (backoffMax c) = true) /\
  (unusable (BATCH_MS env) -> batchMs c = Fin 20000) /\
  (unusable (BATCH_MAX_REQUESTS env) -> batchMax c = Fin 200) /\
  (unusable (BACKOFF_BASE_MS env) -> backoffBase c = Fin 2000) /\
  (unusable (BACKOFF_MAX_MS env) -> backoffMax c = Fin 60000) /\
  (forall s, BATCH_MS env = Some s ->
     Number_isFinite (parseInt s) = true -> batchMs c = parseInt s) /\
  (forall s, BATCH_MAX_REQUESTS env = Some s ->
     Number_isFinite (parseInt s) = true -> batchMax c = parseInt s) /\
  (forall s, BACKOFF_BASE_MS env = Some s ->
     Number_isFinite (parseInt s) = true -> backoffBase c = parseInt s) /\
  (forall s, BACKOFF_MAX_MS env = Some s ->
     Number_isFinite (parseInt s) = true -> backoffMax c = parseInt s).
Proof.
  cbv zeta. split; [apply cfg_finite|].
  unfold cfg; cbn [batchMs batchMax backoffBase backoffMax].
  repeat split;
    try (intros H; rewrite (toNumber_unusable _ _ H); reflexivity);
    intros s Hs Hp; rewrite Hs; now apply toNumber_usable.
Qed.

End ConfigResolution.

(* ===================================================================== *)
(** ** Pipeline A: where the captured events go *)
(* ===================================================================== *)

Section Delivery.
Import JS PipelineA Capture.

Variable env : Env.

Lemma concat_delete {A} (l : list (list A)) (i : nat) (x : list A) :
  l !! i = Some x -> Permutation (concat l) (x ++ concat (delete i l)).
Proof.
  intros H. rewrite <- (take_drop_middle l i x H) at 1.
  rewrite delete_take_drop, !concat_app. cbn [concat].
  apply Permutation_app_swap_app.
Qed.

(** [flush] moves events from the queue to a pending POST, or moves
    nothing. *)
Lemma flush_holds (now : number) (w : World) :
  Permutation (batch (vars w) ++ concat (inflight w))
    (batch (vars (flush env now w)) ++ concat (inflight (flush env now w))).
Proof.
  unfold flush, flush_begin.
  destruct (lt now (backoffUntil (vars w))); [reflexivity|].
  destruct (batch (vars w)) as [|e l] eqn:Eb; cbn [List.length Nat.eqb].
  - cbn. reflexivity.
  - cbn [vars inflight set_batch batch]. rewrite concat_app. cbn [concat].
    rewrite app_nil_r. apply (Permutation_app_comm (e :: l)).
Qed.

Lemma step_holds (w w' : World) (ev : Event) :
  step env w ev = Some w' ->
  Permutation
    ((batch (vars w) ++ concat (inflight w)) ++ captured [ev])
    (acknowledged env w [ev] ++ batch (vars w') ++ concat (inflight w')).
Proof.
  intros Hstep. cbn [acknowledged]. rewrite Hstep, app_nil_r.
  destruct ev as [e now|i now|i o random now]; cbn [step] in Hstep.
  - injection Hstep as <-. cbn [captured flat_map app].
    unfold logAndBatch. set (w1 := set_vars _ w).
    assert (H1 : Permutation
                   ((batch (vars w) ++ concat (inflight w)) ++ [e])
                   (batch (vars w1) ++ concat (inflight w1))).
    { cbn. rewrite <- !app_assoc. apply Permutation_app_head.
      apply Permutation_app_comm. }
    destruct (ge _ _).
    + rewrite H1. apply flush_holds.
    + destruct (negb (flushScheduled (vars w1))); exact H1.
  - destruct (timers w !! i); [|discriminate].
    injection Hstep as <-. cbn [captured flat_map app]. rewrite app_nil_r.
    unfold scheduleFlush_resume. set (w1 := set_vars _ _).
    destruct (0 <? List.length (batch (vars w1)))%nat; [|reflexivity].
    apply (flush_holds (of_Z now) w1).
  - destruct (inflight w !! i) as [toSend|] eqn:Ei; [|discriminate].
    destruct (unit_interval random); [|discriminate].
    injection Hstep as <-. cbn [captured flat_map app]. rewrite app_nil_r.
    cbn [vars inflight].
    pose proof (concat_delete _ _ _ Ei) as Hdel.
    destruct (sink_failure o) eqn:Eo.
    + rewrite (flush_settle_failure env) by exact Eo.
      unfold backoff_and_requeue. cbn [batch set_batch app].
      rewrite Hdel, <- app_assoc. apply Permutation_app_swap_app.
    + rewrite (flush_settle_success env) by exact Eo.
      cbn [batch set_backoff]. rewrite Hdel.
      apply Permutation_app_swap_app.
Qed.

Lemma acknowledged_cons (w w1 : World) (ev : Event) (evs : list Event) :
  step env w ev = Some w1 ->
  acknowledged env w (ev :: evs)
  = acknowledged env w [ev] ++ acknowledged env w1 evs.
Proof.
  intros H. cbn [acknowledged]. rewrite H, app_nil_r. reflexivity.
Qed.

(** No event is lost or duplicated.  Over any run, the events held at the
    start (queued or in a pending POST) together with those captured
    since are, as a multiset, exactly the events of the POSTs that
    settled without a failure together with those still held at the
    end. *)
Theorem captured_events_are_conserved (evs : list Event) :
  forall w w',
    run env w evs = Some w' ->
    Permutation
      ((batch (vars w) ++ concat (inflight w)) ++ captured evs)
      (acknowledged env w evs ++ batch (vars w') ++ concat (inflight w')).
Proof.
  induction evs as [|ev evs IH]; intros w w' Hrun; cbn [run] in Hrun.
  - injection Hrun as <-. cbn. now rewrite app_nil_r.
  - destruct (step env w ev) as [w1|] eqn:Es; [|discriminate].
    rewrite (acknowledged_cons w w1 ev evs Es), (captured_cons ev evs).
    etransitivity.
    { rewrite app_assoc. apply Permutation_app_tail.
      apply (step_holds _ _ _ Es). }
    rewrite <- !app_assoc. apply Permutation_app_head.
    rewrite app_assoc. apply (IH _ _ Hrun).
Qed.

Lemma flush_posts_well_formed (now : number) (w : World) :
  posts_well_formed env w -> posts_well_formed env (flush env now w).
Proof.
  intros [Hp Hi]. unfold flush, flush_begin.
  destruct (lt now (backoffUntil (vars w))); [split; assumption|].
  destruct (batch (vars w)) as [|e l] eqn:Eb; cbn [List.length Nat.eqb];
    [split; assumption|].
  split; cbn [posts inflight]; apply Forall_app; split; try assumption;
    repeat constructor; discriminate.
Qed.

Lemma step_posts_well_formed (w w' : World) (ev : Event) :
  posts_well_formed env w -> step env w ev = Some w' -> posts_well_formed env w'.
Proof.
  intros Hw Hstep.
  destruct ev as [e now|i now|i o random now]; cbn [step] in Hstep.
  - injection Hstep as <-. unfold logAndBatch. set (w1 := set_vars _ w).
    destruct (ge _ _); [now apply flush_posts_well_formed|].
    destruct (negb (flushScheduled (vars w1))); exact Hw.
  - destruct (timers w !! i); [|discriminate].
    injection Hstep as <-. unfold scheduleFlush_resume.
    set (w1 := set_vars _ _).
    destruct (0 <? List.length (batch (vars w1)))%nat; [|exact Hw].
    now apply flush_posts_well_formed.
  - destruct (inflight w !! i) as [toSend|] eqn:Ei; [|discriminate].
    destruct (unit_interval random); [|discriminate].
    injection Hstep as <-. destruct Hw as [Hp Hi]. split; [exact Hp|].
    cbn [inflight]. rewrite delete_take_drop. apply Forall_app. split.
    + now apply Forall_take.
    + now apply Forall_drop.
Qed.

Lemma step_posts_count (w w' : World) (ev : Event) :
  step env w ev = Some w' ->
  (List.length (posts w') + List.length (inflight w)
   = List.length (posts w) + List.length (inflight w')
     + (if is_settle ev then 1 else 0))%nat.
Proof.
  intros Hstep.
  assert (Hflush : forall now w0,
             (List.length (posts (flush env now w0))
              + List.length (inflight w0)
              = List.length (posts w0)
                + List.length (inflight (flush env now w0)))%nat).
  { intros now w0. unfold flush, flush_begin.
    destruct (lt now (backoffUntil (vars w0))); [reflexivity|].
    destruct (List.length (batch (vars w0)) =? 0)%nat; [reflexivity|].
    cbn [posts inflight]. rewrite !length_app. cbn. lia. }
  destruct ev as [e now|i now|i o random now]; cbn [step is_settle] in *.
  - injection Hstep as <-. unfold logAndBatch. set (w1 := set_vars _ w).
    destruct (ge _ _).
    + pose proof (Hflush (of_Z now) w1) as H. cbn in H |- *. lia.
    + destruct (negb (flushScheduled (vars w1))); cbn; lia.
  - destruct (timers w !! i); [|discriminate].
    injection Hstep as <-. unfold scheduleFlush_resume.
    set (w1 := set_vars _ _).
    destruct (0 <? List.length (batch (vars w1)))%nat; [|cbn; lia].
    pose proof (Hflush (of_Z now) w1) as H. cbn in H |- *. lia.
  - destruct (inflight w !! i) as [toSend|] eqn:Ei; [|discriminate].
    destruct (unit_interval random); [|discriminate].
    injection Hstep as <-. cbn [posts inflight].
    rewrite length_delete by eauto.
    apply lookup_lt_Some in Ei. lia.
Qed.

(** From boot on, the sink client never POSTs an empty batch: every POST
    ever issued carries at least one event and goes to the configured
    endpoint, every pending POST holds at least one event, and the POSTs
    issued are exactly the pending ones plus the settled ones. *)
Theorem no_empty_post (evs : list Event) (w : World) :
  run env boot evs = Some w ->
  Forall (fun p => post_lines p <> [] /\
                   post_url p = clarityEndpoint (cfg env)) (posts w) /\
  Forall (fun toSend => toSend <> []) (inflight w) /\
  List.length (posts w)
  = (List.length (inflight w) + List.length (List.filter is_settle evs))%nat.
Proof.
  assert (H : forall evs w0 w',
             run env w0 evs = Some w' ->
             posts_well_formed env w0 ->
             posts_well_formed env w' /\
             (List.length (posts w') + List.length (inflight w0)
              = List.length (posts w0) + List.length (inflight w')
                + List.length (List.filter is_settle evs))%nat).
  { clear evs w. induction evs as [|ev evs IH]; intros w0 w' Hrun Hw;
      cbn [run] in Hrun.
    - injection Hrun as <-. split; [exact Hw | cbn; lia].
    - destruct (step env w0 ev) as [w1|] eqn:Es; [|discriminate].
      pose proof (step_posts_well_formed _ _ _ Hw Es) as Hw1.
      destruct (IH _ _ Hrun Hw1) as [Hw' Hcount].
      split; [exact Hw'|].
      pose proof (step_posts_count _ _ _ Es) as Hs.
      cbn [List.filter]. destruct (is_settle ev); cbn [List.length]; lia. }
  intros Hrun.
  destruct (H evs boot w Hrun) as [[Hp Hi] Hcount].
  { split; constructor. }
  split; [exact Hp|]. split; [exact Hi|]. cbn in Hcount. lia.
Qed.

End Delivery.

(* ===================================================================== *)
(** ** Pipeline A: the two flush triggers *)
(* ===================================================================== *)

Section Triggers.
Import JS PipelineA Capture.

Variable env : Env.

(** Below the ceiling stays below the ceiling for shorter queues. *)
Lemma below_ceiling (c : number) (n N : nat) :
  lt (of_nat N) c = true -> (n <= N)%nat -> ge (of_nat n) c = false.
Proof.
  intros H Hn. unfold ge, of_nat in *.
  destruct c as [| | |m]; try discriminate; [reflexivity|].
  apply lt_Fin in H. cbn [le].
  destruct (Qle_bool m (inject_Z (Z.of_nat n))) eqn:E; [|reflexivity].
  apply Qle_bool_iff in E. exfalso. apply (Qlt_irrefl m).
  eapply Qle_lt_trans; [exact E|].
  eapply Qle_lt_trans; [|exact H].
  rewrite <- Zle_Qle. lia.
Qed.

(** A capture that does not reach the ceiling appends its event, issues
    no POST and makes sure a timer is armed. *)
Lemma logAndBatch_below_ceiling (e : LogEvent) (now : number) (w : World) :
  ge (of_nat (S (List.length (batch (vars w))))) (batchMax (cfg env)) = false ->
  logAndBatch env e now w
  = {| vars := set_flushScheduled true
                 (set_batch (batch (vars w) ++ [e]) (vars w));
       timers := if flushScheduled (vars w) then timers w
                 else timers w ++ [batchMs (cfg env)];
       inflight := inflight w;
       posts := posts w |}.
Proof.
  intros H. unfold logAndBatch. cbn [vars set_vars set_batch batch].
  rewrite length_app, Nat.add_1_r, H. cbn [flushScheduled].
  destruct w as [[b f u m] t i p]. cbn.
  destruct f; reflexivity.
Qed.

(** A capture inside the backoff window appends its event and issues no
    POST, whatever the length of the queue. *)
Lemma logAndBatch_in_window (e : LogEvent) (now : number) (w : World) :
  lt now (backoffUntil (vars w)) = true ->
  let w' := logAndBatch env e now w in
  batch (vars w') = batch (vars w) ++ [e] /\
  posts w' = posts w /\ inflight w' = inflight w /\
  backoffUntil (vars w') = backoffUntil (vars w) /\
  backoffMs (vars w') = backoffMs (vars w).
Proof.
  intros H. cbv zeta. unfold logAndBatch. set (w1 := set_vars _ w).
  destruct (ge _ _).
  - unfold flush, flush_begin.
    change (backoffUntil (vars w1)) with (backoffUntil (vars w)).
    rewrite H. repeat split.
  - destruct (negb (flushScheduled (vars w1))); repeat split.
Qed.

(** While the backoff window lasts the queue only grows: captures made
    before [backoffUntil] append their events in order, however many they
    are, and issue no POST; the backoff variables stay as they are. *)
Theorem cooldown_only_accumulates (caps : list (LogEvent * Z)) :
  forall w,
    Forall (fun p => lt (of_Z (snd p)) (backoffUntil (vars w)) = true) caps ->
    exists w',
      run env w (captures caps) = Some w' /\
      batch (vars w') = batch (vars w) ++ map fst caps /\
      posts w' = posts w /\ inflight w' = inflight w /\
      backoffUntil (vars w') = backoffUntil (vars w) /\
      backoffMs (vars w') = backoffMs (vars w).
Proof.
  induction caps as [|[e t] caps IH]; intros w Hall.
  - exists w. cbn. rewrite app_nil_r. repeat split.
  - apply Forall_cons in Hall. destruct Hall as [Ht Hall]. cbn [snd] in Ht.
    destruct (logAndBatch_in_window e (of_Z t) w Ht)
      as (Hb & Hp & Hi & Hu & Hm).
    destruct (IH (logAndBatch env e (of_Z t) w)) as (w' & Hrun & Hb' & Hp' & Hi' & Hu' & Hm').
    { rewrite Hu. exact Hall. }
    exists w'. cbn [captures map run step fst snd].
    split; [exact Hrun|].
    rewrite Hb', Hb, Hp', Hp, Hi', Hi, Hu', Hu, Hm', Hm, <- app_assoc.
    repeat split.
Qed.

(** Captures that stay below the ceiling. *)
Lemma run_below_ceiling (caps : list (LogEvent * Z)) :
  forall w,
    lt (of_nat (List.length (batch (vars w)) + List.length caps))
       (batchMax (cfg env)) = true ->
    exists w',
      run env w (captures caps) = Some w' /\
      batch (vars w') = batch (vars w) ++ map fst caps /\
      posts w' = posts w /\ inflight w' = inflight w /\
      backoffUntil (vars w') = backoffUntil (vars w) /\
      backoffMs (vars w') = backoffMs (vars w) /\
      flushScheduled (vars w')
      = match caps with [] => flushScheduled (vars w) | _ => true end /\
      timers w'
      = match caps with
        | [] => timers w
        | _ => if flushScheduled (vars w) then timers w
               else timers w ++ [batchMs (cfg env)]
        end.
Proof.
  induction caps as [|[e t] caps IH]; intros w Hlt.
  - exists w. cbn. rewrite app_nil_r. repeat split.
  - assert (Hge : ge (of_nat (S (List.length (batch (vars w)))))
                    (batchMax (cfg env)) = false).
    { eapply below_ceiling; [exact Hlt|]. cbn [List.length]. lia. }
    pose proof (logAndBatch_below_ceiling e (of_Z t) w Hge) as Hstep.
    set (w1 := logAndBatch env e (of_Z t) w) in *.
    destruct (IH w1) as (w' & Hrun & Hb & Hp & Hi & Hu & Hm & Hf & Ht).
    { rewrite Hstep. cbn [vars batch set_flushScheduled set_batch].
      rewrite length_app. cbn [List.length] in Hlt |- *.
      replace (List.length (batch (vars w)) + 1 + List.length caps)%nat
        with (List.length (batch (vars w)) + S (List.length caps))%nat by lia.
      exact Hlt. }
    exists w'. cbn [captures map run step fst snd]. fold w1.
    split; [exact Hrun|].
    rewrite Hb, Hp, Hi, Hu, Hm, Hf, Ht, Hstep.
    cbn [vars batch set_flushScheduled set_batch flushScheduled timers
         inflight posts backoffUntil backoffMs].
    rewrite <- app_assoc. repeat split.
    + destruct caps; reflexivity.
    + destruct caps; reflexivity.
Qed.

(** The time trigger.  Starting from boot, captures that stay below the
    batch ceiling arm exactly one timer and issue no POST; when that timer
    fires, one POST leaves for the configured endpoint with all the
    captured events in capture order, the queue is empty and no timer is
    left. *)
Theorem timer_delivers_in_capture_order
    (caps : list (LogEvent * Z)) (tfire : Z) :
  caps <> [] ->
  lt (of_nat (List.length caps)) (batchMax (cfg env)) = true ->
  0 <= tfire ->
  exists w1 w2,
    run env boot (captures caps) = Some w1 /\
    timers w1 = [batchMs (cfg env)] /\ posts w1 = [] /\
    batch (vars w1) = map fst caps /\
    step env w1 (TimerFires 0 tfire) = Some w2 /\
    posts w2 = [{| post_url := clarityEndpoint (cfg env);
                   post_lines := map fst caps |}] /\
    inflight w2 = [map fst caps] /\
    batch (vars w2) = [] /\ timers w2 = [] /\
    flushScheduled (vars w2) = false.
Proof.
  intros Hne Hlt Ht.
  destruct (run_below_ceiling caps boot Hlt)
    as (w1 & Hrun & Hb & Hp & Hi & Hu & Hm & Hf & Htm).
  cbn [boot vars initial batch app flushScheduled timers posts inflight
       backoffUntil] in *.
  assert (Htimers : timers w1 = [batchMs (cfg env)])
    by (destruct caps; [congruence | exact Htm]).
  assert (Hbatch : batch (vars w1) <> []).
  { rewrite Hb. destruct caps; [congruence | discriminate]. }
  assert (Hnow : lt (of_Z tfire) (backoffUntil (vars w1)) = false).
  { rewrite Hu. apply lt_Fin_false. change 0%Q with (inject_Z 0).
    now rewrite <- Zle_Qle. }
  eexists w1, _. split; [exact Hrun|]. split; [exact Htimers|].
  split; [exact Hp|]. split; [exact Hb|].
  cbn [step]. rewrite Htimers. cbn [lookup list_lookup].
  split; [reflexivity|].
  unfold scheduleFlush_resume.
  cbn [vars set_vars set_flushScheduled batch].
  destruct (batch (vars w1)) as [|e l] eqn:Eb; [congruence|].
  cbn [List.length Nat.ltb Nat.leb].
  unfold flush, flush_begin.
  cbn [vars set_vars set_flushScheduled batch backoffUntil].
  rewrite Hnow, Eb. cbn [List.length Nat.eqb].
  cbn [posts inflight vars timers batch set_batch flushScheduled].
  rewrite Hp, Hi, <- Hb. repeat split.
Qed.

(** The size trigger.  A capture that brings the queue to the ceiling
    outside the backoff window POSTs the whole queue at once, the new
    event last, and arms no timer; inside the window it only appends the
    event, and arms no timer either. *)
Theorem ceiling_flushes_at_once (e : LogEvent) (now : number) (w : World) :
  ge (of_nat (S (List.length (batch (vars w))))) (batchMax (cfg env)) = true ->
  (lt now (backoffUntil (vars w)) = false ->
   logAndBatch env e now w
   = {| vars := set_batch [] (vars w);
        timers := timers w;
        inflight := inflight w ++ [batch (vars w) ++ [e]];
        posts := posts w ++
                 [{| post_url := clarityEndpoint (cfg env);
                     post_lines := batch (vars w) ++ [e] |}] |}) /\
  (lt now (backoffUntil (vars w)) = true ->
   logAndBatch env e now w
   = set_vars (set_batch (batch (vars w) ++ [e]) (vars w)) w).
Proof.
  intros Hge. destruct w as [[b f u m] t i p].
  unfold logAndBatch, flush, flush_begin.
  cbn [vars set_vars set_batch batch backoffUntil flushScheduled backoffMs
       timers inflight posts] in *.
  rewrite length_app, Nat.add_1_r, Hge.
  split; intros Hw; rewrite Hw; [|reflexivity].
  cbn [Nat.eqb]. reflexivity.
Qed.

(** What a settling POST puts back: its outbox when it failed, nothing
    otherwise. *)
Lemma flush_settle_batch
    (toSend : list LogEvent) (o : FetchOutcome) (random : Q)
    (now : number) (s : State) :
  batch (flush_settle env toSend o random now s)
  = (if sink_failure o then toSend else []) ++ batch s.
Proof.
  destruct (sink_failure o) eqn:Eo.
  - rewrite (flush_settle_failure env) by exact Eo. reflexivity.
  - rewrite (flush_settle_success env) by exact Eo. reflexivity.
Qed.

(** A queue left behind waits for the next request.  While no timer is
    outstanding and nothing is captured, no POST is issued and no timer
    is armed, whatever else happens.  The queue keeps all it holds; only
    a failing POST adds to its front, and it adds its own outbox: the
    queue ends as the outboxes of the POSTs that failed, the latest
    first, followed by what it held.  With no failing POST the queue is
    unchanged. *)
Theorem no_post_until_next_capture (evs : list Event) :
  forall w w',
    timers w = [] ->
    captured evs = [] ->
    run env w evs = Some w' ->
    posts w' = posts w /\ timers w' = [] /\
    batch (vars w') = requeued env w evs ++ batch (vars w) /\
    (existsb is_failed_settle evs = false ->
     batch (vars w') = batch (vars w)).
Proof.
  induction evs as [|ev evs IH]; intros w w' Ht Hc Hrun; cbn [run] in Hrun.
  - injection Hrun as <-.
    split; [reflexivity|]. split; [exact Ht|]. split; [reflexivity|].
    intros _. reflexivity.
  - cbn [requeued existsb].
    destruct (step env w ev) as [w1|] eqn:Es; [|discriminate].
    rewrite captured_cons in Hc. apply app_eq_nil in Hc.
    destruct Hc as [Hev Hc].
    destruct ev as [e now|i now|i o random now]; cbn [step] in Es.
    + discriminate Hev.
    + rewrite Ht in Es. discriminate Es.
    + destruct (inflight w !! i) as [toSend|]; [|discriminate].
      destruct (unit_interval random); [|discriminate].
      injection Es as <-.
      eapply IH in Hrun as (Hp & Ht' & Hb & Hnone);
        [|exact Ht|exact Hc].
      cbn [vars] in Hb, Hnone.
      rewrite flush_settle_batch in Hb, Hnone.
      cbn [is_failed_settle].
      split; [exact Hp|]. split; [exact Ht'|]. split.
      * rewrite Hb. now rewrite <- app_assoc.
      * intros Hno. apply orb_false_iff in Hno. destruct Hno as [Ho Hrest].
        rewrite (Hnone Hrest), Ho. reflexivity.
Qed.

End Triggers.

(* ===================================================================== *)
(** ** Pipeline A: how the backoff grows *)
(* ===================================================================== *)

Section BackoffGrowth.
Import JS PipelineA Capture.

Variable env : Env.

Lemma overflow_bound_above_defaults : (60000 < overflow_bound)%Z.
Proof. vm_compute. reflexivity. Qed.

Lemma of_real_Fin_bounded (q x : Q) :
  of_real q = Fin x -> (x < inject_Z overflow_bound)%Q.
Proof.
  unfold of_real.
  destruct (Qle_bool (inject_Z overflow_bound) q) eqn:E1; [discriminate|].
  destruct (Qle_bool q (- inject_Z overflow_bound)); [discriminate|].
  intros H. injection H as <-. rewrite Qred_correct.
  apply Qnot_le_lt. intros Hle. apply Qle_bool_iff in Hle. congruence.
Qed.

(** The configured maximum is below the overflow bound. *)
Lemma backoffMax_bounded (m : Q) :
  backoffMax (cfg env) = Fin m -> (m < inject_Z overflow_bound)%Q.
Proof.
  unfold cfg; cbn [backoffMax]. unfold toNumber.
  destruct (Number_isFinite
              match BACKOFF_MAX_MS env with
              | Some s => parseInt s
              | None => NaN
              end) eqn:E.
  - destruct (BACKOFF_MAX_MS env) as [s|]; [|discriminate].
    unfold parseInt.
    destruct (take_sign (drop_spaces (chars s))) as [sg r].
    destruct (span_digits 10 r) as [[|d ds] rest]; [discriminate|].
    apply of_real_Fin_bounded.
  - intros H. injection H as <-. rewrite <- Zlt_Qlt.
    apply overflow_bound_above_defaults.
Qed.

Lemma pow2_Q (k : nat) :
  (1 <= inject_Z (2 ^ Z.of_nat k))%Q /\
  inject_Z (2 ^ Z.of_nat (S k)) == 2 * inject_Z (2 ^ Z.of_nat k).
Proof.
  split.
  - change 1%Q with (inject_Z 1). rewrite <- Zle_Qle.
    pose proof (Z.pow_pos_nonneg 2 (Z.of_nat k)). lia.
  - rewrite Nat2Z.inj_succ, Z.pow_succ_r by lia.
    rewrite inject_Z_mult. reflexivity.
Qed.

(** One more failure doubles a running backoff, up to the maximum. *)
Lemma backoff_and_requeue_doubles
    (toSend : list LogEvent) (random : Q) (now : number) (s : State)
    (b m q X : Q) :
  backoffMax (cfg env) = Fin m ->
  (0 < X)%Q -> (0 < m)%Q ->
  backoffMs s = Fin q -> q == Qmin X m ->
  exists q',
    backoffMs (backoff_and_requeue (cfg env) toSend random now s) = Fin q' /\
    q' == Qmin (2 * X) m.
Proof.
  intros Hm HX Hm0 Hs Hq.
  pose proof (backoffMax_bounded m Hm) as Hbound.
  pose proof overflow_bound_Q as Hbig.
  set (B := inject_Z overflow_bound) in *.
  unfold backoff_and_requeue. cbn [backoffMs set_batch set_backoff].
  rewrite Hs, Hm. cbn [truthy].
  assert (Hqpos : (0 < q)%Q).
  { rewrite Hq. destruct (Q.min_spec X m) as [[_ ->]|[_ ->]]; assumption. }
  assert (HqX : (q <= X)%Q) by (rewrite Hq; apply Q.le_min_l).
  assert (Hqm : (q <= m)%Q) by (rewrite Hq; apply Q.le_min_r).
  destruct (Qeq_bool q 0) eqn:Eq.
  { apply Qeq_bool_iff in Eq. exfalso. lra. }
  cbn [negb mul].
  destruct (of_real_cases (q * 2)) as [[Hr Hge]|[[Hr Hle]|Hr]]; rewrite Hr.
  - fold B in Hge. exists m. split; [reflexivity|].
    destruct (Q.min_spec (2 * X) m) as [[H1 H2]|[H1 H2]]; rewrite H2; lra.
  - fold B in Hle. exfalso. lra.
  - pose proof (Qred_correct (q * 2)) as Hx.
    set (x := Qred (q * 2)) in *. cbn [Math_min].
    destruct (lt (Fin x) (Fin m)) eqn:El.
    + apply lt_Fin in El. exists x. split; [reflexivity|].
      destruct (Q.min_spec X m) as [[H1 H2]|[H1 H2]]; rewrite H2 in Hq;
        destruct (Q.min_spec (2 * X) m) as [[H3 H4]|[H3 H4]]; rewrite H4;
        lra.
    + apply lt_Fin_false in El. exists m. split; [reflexivity|].
      destruct (Q.min_spec (2 * X) m) as [[H3 H4]|[H3 H4]]; rewrite H4; lra.
Qed.

Lemma failures_grow (b m : Q) :
  backoffMax (cfg env) = Fin m -> (0 < b)%Q -> (0 < m)%Q ->
  forall attempts s q k,
    backoffMs s = Fin q ->
    q == Qmin (b * inject_Z (2 ^ Z.of_nat k)) m ->
    exists q',
      backoffMs (failures (cfg env) attempts s) = Fin q' /\
      q' == Qmin (b * inject_Z (2 ^ Z.of_nat (k + List.length attempts))) m.
Proof.
  intros Hm Hb Hm0.
  induction attempts as [|[[toSend random] now] rest IH]; intros s q k Hs Hq.
  - exists q. cbn [failures List.length]. rewrite Nat.add_0_r. now split.
  - cbn [failures List.length].
    destruct (pow2_Q k) as [Hp1 Hp2].
    destruct (backoff_and_requeue_doubles toSend random now s b m q
                (b * inject_Z (2 ^ Z.of_nat k)) Hm) as (q1 & Hs1 & Hq1);
      try assumption.
    { apply Qmult_lt_0_compat; [exact Hb|].
      eapply Qlt_le_trans; [|exact Hp1]. reflexivity. }
    destruct (IH _ q1 (S k) Hs1) as (q' & Hs' & Hq').
    { assert (E : (2 * (b * inject_Z (2 ^ Z.of_nat k))
                   == b * (2 * inject_Z (2 ^ Z.of_nat k)))%Q) by ring.
      rewrite Hq1, Hp2, E. reflexivity. }
    exists q'. split; [exact Hs'|].
    rewrite Hq'. replace (S k + List.length rest)%nat
      with (k + S (List.length rest))%nat by lia.
    reflexivity.
Qed.

(** The backoff as a closed form.  With a base [b > 0] no larger than the
    maximum [m], and starting from a reset backoff, a streak of [n]
    failures in a row leaves [backoffMs] at [min (b * 2^(n-1)) m]: the
    base, doubled with every further failure, capped at the maximum. *)
Theorem backoff_doubles_from_base
    (attempts : list (list LogEvent * Q * number)) (s : State) (b m : Q) :
  backoffBase (cfg env) = Fin b ->
  backoffMax (cfg env) = Fin m ->
  (0 < b)%Q -> (b <= m)%Q ->
  truthy (backoffMs s) = false ->
  attempts <> [] ->
  exists q,
    backoffMs (failures (cfg env) attempts s) = Fin q /\
    q == Qmin (b * inject_Z (2 ^ Z.of_nat (List.length attempts - 1))) m.
Proof.
  intros Hb Hm Hb0 Hbm Hs Hne.
  destruct attempts as [|[[toSend random] now] rest]; [congruence|].
  cbn [failures List.length].
  assert (Hm0 : (0 < m)%Q) by lra.
  destruct (failures_grow b m Hm Hb0 Hm0 rest
              (backoff_and_requeue (cfg env) toSend random now s) b 0%nat)
    as (q & Hq1 & Hq2).
  - unfold backoff_and_requeue. cbn [backoffMs set_batch set_backoff].
    rewrite Hs. exact Hb.
  - change (inject_Z (2 ^ Z.of_nat 0)) with 1%Q.
    destruct (Q.min_spec (b * 1) m) as [[_ ->]|[H ->]]; lra.
  - exists q. split; [exact Hq1|].
    rewrite Hq2.
    replace (S (List.length rest) - 1)%nat with (0 + List.length rest)%nat
      by lia.
    reflexivity.
Qed.

End BackoffGrowth.

(* ===================================================================== *)
(** ** Pipeline A: the log record and the handler *)
(* ===================================================================== *)

Section LogRecord.
Import JS PipelineA Capture.

Lemma chars_append (a b : string) :
  chars (String.append a b) = chars a ++ chars b.
Proof.
  unfold chars. induction a as [|c a IH]; [reflexivity|].
  change (String.append (String c a) b) with (String c (String.append a b)).
  cbn [list_ascii_of_string app]. now rewrite IH.
Qed.

Lemma str_chars (s : string) : str (chars s) = s.
Proof. apply string_of_list_ascii_of_string. Qed.

Lemma chars_str (l : list ascii) : chars (str l) = l.
Proof. apply list_ascii_of_string_of_list_ascii. Qed.

Lemma nonempty_append (a b : string) :
  nonempty a = true -> nonempty (String.append a b) = true.
Proof. destruct a; [discriminate | reflexivity]. Qed.

Lemma remove_first_last (c : ascii) (l : list ascii) :
  ~ In c l -> remove_first c (l ++ [c]) = l.
Proof.
  induction l as [|x l IH]; intros Hnin; cbn.
  - now rewrite Ascii.eqb_refl.
  - destruct (Ascii.eqb x c) eqn:E.
    + apply Ascii.eqb_eq in E. exfalso. apply Hnin. now left.
    + f_equal. apply IH. intros H. apply Hnin. now right.
Qed.

(** The scheme of the record is the scheme of the URL.  For a URL whose
    protocol is a scheme (non-empty, without colon) followed by its colon,
    [ClientRequestScheme] is that scheme, whatever [request.cf] holds; the
    edge hint decides only when the protocol is empty, and then the
    scheme is ["https"] with a hint and empty without. *)
Theorem scheme_is_url_scheme
    (timestamp : string) (request : Request) (response : Response) :
  (forall scheme,
      protocol (url request) = String.append scheme ":" ->
      nonempty scheme = true ->
      ~ In ":"%char (chars scheme) ->
      ClientRequestScheme (buildLogObject timestamp request response)
      = scheme) /\
  (protocol (url request) = "" ->
   ClientRequestScheme (buildLogObject timestamp request response)
   = if nonempty (cf_field (cf request) httpProtocol) then "https" else "").
Proof.
  split.
  - intros scheme Hp Hne Hcolon.
    unfold buildLogObject. cbn [ClientRequestScheme]. rewrite Hp.
    unfold or_string at 2. rewrite (nonempty_append _ _ Hne).
    unfold replace_colon. rewrite chars_append.
    change (chars ":") with [":"%char].
    rewrite (remove_first_last _ _ Hcolon), str_chars.
    unfold or_string. now rewrite Hne.
  - intros Hp. unfold buildLogObject. cbn [ClientRequestScheme].
    rewrite Hp. reflexivity.
Qed.

(** The handler answers with the origin's response itself and logs the
    request once: the record of this request and response is appended to
    the queue, once, and nothing else changes but the flush timer the
    capture may arm; or, when the capture set off a POST, the queue with
    the record appended once is that one new POST's lines, and the queue
    is left empty.  When the origin fetch throws, the handler throws and
    the isolate is untouched. *)
Theorem handler_passes_response_and_logs
    (env : Env) (request : Request) (timestamp : string) (now : number)
    (w : World) :
  (forall response,
      let r := fetch env request (Some response) timestamp now w in
      let e := buildLogObject timestamp request response in
      fst r = Some response /\
      (batch (vars (snd r)) = batch (vars w) ++ [e] /\
       posts (snd r) = posts w /\
       inflight (snd r) = inflight w /\
       (timers (snd r) = timers w \/
        timers (snd r) = timers w ++ [batchMs (cfg env)])
       \/
       batch (vars (snd r)) = [] /\
       inflight (snd r) = inflight w ++ [batch (vars w) ++ [e]] /\
       posts (snd r)
       = posts w ++ [{| post_url := clarityEndpoint (cfg env);
                        post_lines := batch (vars w) ++ [e] |}] /\
       timers (snd r) = timers w)) /\
  fetch env request None timestamp now w = (None, w).
Proof.
  split; [|reflexivity].
  intros response. cbv zeta. cbn [fetch fst snd]. split; [reflexivity|].
  set (e := buildLogObject timestamp request response).
  unfold logAndBatch. set (w1 := set_vars _ w).
  assert (Hb : batch (vars w1) = batch (vars w) ++ [e]) by reflexivity.
  assert (Hp : posts w1 = posts w) by reflexivity.
  assert (Hi : inflight w1 = inflight w) by reflexivity.
  assert (Ht : timers w1 = timers w) by reflexivity.
  destruct (ge _ _).
  - unfold flush, flush_begin.
    destruct (lt now (backoffUntil (vars w1))).
    { left. repeat split; try assumption. now left. }
    destruct (List.length (batch (vars w1)) =? 0)%nat eqn:El.
    + exfalso. apply Nat.eqb_eq in El. rewrite Hb, length_app in El.
      cbn in El. lia.
    + right. cbn [vars inflight posts timers batch set_batch].
      rewrite Hb, Hp, Hi, Ht. repeat split.
  - destruct (negb (flushScheduled (vars w1))).
    + left. repeat split; try assumption. now right.
    + left. repeat split; try assumption. now left.
Qed.

End LogRecord.

(* ===================================================================== *)
(** ** The Pages relay *)
(* ===================================================================== *)

Section PagesRelay.
Import JS Pages.

Variable href : string -> option string.
Variable upstream : RelayCall -> option Z.

Lemma strip_trailing_slash_slash (t : string) :
  strip_trailing_slash (String.append t "/") = t.
Proof.
  unfold strip_trailing_slash. rewrite chars_append.
  change (chars "/") with ["/"%char]. rewrite rev_app_distr. cbn [rev app].
  now rewrite rev_involutive, str_chars.
Qed.

Lemma strip_trailing_slash_other (s : string) :
  (forall t, s <> String.append t "/") -> strip_trailing_slash s = s.
Proof.
  intros H. unfold strip_trailing_slash.
  destruct (rev (chars s)) as [|c l] eqn:E; [reflexivity|].
  destruct (Ascii.eqb c "/") eqn:Ec.
  - apply Ascii.eqb_eq in Ec. subst c. exfalso. apply (H (str (rev l))).
    assert (Hc : chars s = chars (String.append (str (rev l)) "/")).
    { rewrite chars_append, chars_str. change (chars "/") with ["/"%char].
      rewrite <- (rev_involutive (chars s)), E. reflexivity. }
    rewrite <- (str_chars s), Hc. apply str_chars.
  - destruct c as [[] [] [] [] [] [] [] []]; try reflexivity.
    discriminate Ec.
Qed.


End PagesRelay.

(* ===================================================================== *)
(** ** Pipeline B: the hex signature *)
(* ===================================================================== *)

Section HexSignature.
Import JS Signing.

Variable hmac_sha256 : string -> string -> list Byte.byte.

Lemma length_str (l : list ascii) : String.length (str l) = List.length l.
Proof.
  induction l as [|c l IH]; [reflexivity|].
  change (String.length (str (c :: l))) with (S (String.length (str l))).
  cbn [List.length]. now rewrite IH.
Qed.

Lemma hex_byte_length (b : Byte.byte) :
  List.length (padStart2 (toString16 (Byte.to_N b))) = 2%nat.
Proof. destruct b; reflexivity. Qed.

Lemma unhex_byte (b : Byte.byte) (rest : list ascii) :
  unhex_chars (padStart2 (toString16 (Byte.to_N b)) ++ rest)
  = option_map (cons b) (unhex_chars rest).
Proof.
  destruct b; cbn; destruct (unhex_chars rest); reflexivity.
Qed.

Lemma hex_byte_lower (b : Byte.byte) :
  Forall (fun c => exists n, unhex_digit c = Some n)
    (padStart2 (toString16 (Byte.to_N b))).
Proof. destruct b; repeat constructor; eexists; reflexivity. Qed.

Lemma hex_facts (bytes : list Byte.byte) :
  String.length (hex bytes) = (2 * List.length bytes)%nat /\
  Forall (fun c => exists n, unhex_digit c = Some n) (chars (hex bytes)) /\
  unhex (hex bytes) = Some bytes.
Proof.
  split; [|split].
  - unfold hex. rewrite length_str.
    induction bytes as [|b bs IH]; [reflexivity|].
    cbn [flat_map List.length]. rewrite length_app, hex_byte_length, IH.
    lia.
  - unfold hex. rewrite chars_str.
    induction bytes as [|b bs IH]; [constructor|].
    cbn [flat_map]. apply Forall_app. split; [apply hex_byte_lower|exact IH].
  - unfold unhex, hex. rewrite chars_str.
    induction bytes as [|b bs IH]; [reflexivity|].
    cbn [flat_map]. rewrite unhex_byte, IH. reflexivity.
Qed.

(** The signature text.  [hmacSha256Hex] writes every byte of the digest
    as two characters of [0-9a-f]: the text is twice as long as the
    digest (64 characters for the 32 bytes of SHA-256), and reading it
    back two digits at a time returns the digest, so two digests with the
    same text are the same digest. *)
Theorem hmacSha256Hex_is_lowercase_hex (key data : string) :
  let digest := hmac_sha256 key data in
  let text := hmacSha256Hex hmac_sha256 key data in
  String.length text = (2 * List.length digest)%nat /\
  (List.length digest = 32%nat -> String.length text = 64%nat) /\
  Forall (fun c => exists n, unhex_digit c = Some n) (chars text) /\
  unhex text = Some digest /\
  (forall key' data',
      hmacSha256Hex hmac_sha256 key' data' = text ->
      hmac_sha256 key' data' = digest).
Proof.
  cbv zeta. unfold hmacSha256Hex.
  destruct (hex_facts (hmac_sha256 key data)) as (Hlen & Hlow & Hun).
  split; [exact Hlen|]. split; [intros H; rewrite Hlen, H; reflexivity|].
  split; [exact Hlow|]. split; [exact Hun|].
  intros key' data' H.
  destruct (hex_facts (hmac_sha256 key' data')) as (_ & _ & Hun').
  rewrite H, Hun in Hun'. congruence.
Qed.

End HexSignature.

(* ===================================================================== *)
(** ** Pipeline B: rate, timeout and redact set as configured *)
(* ===================================================================== *)

Section ConfigB.
Import JS PipelineB.

(** [clamp] lands in the range it is given, from any number. *)
Lemma clamp_in_range (n : number) (lo hi : Q) :
  (lo <= hi)%Q ->
  exists c,
    clamp n (Fin lo) (Fin hi) = Fin c /\ (lo <= c)%Q /\ (c <= hi)%Q /\
    (forall q, n = Fin q -> (lo <= q)%Q -> (q <= hi)%Q -> c == q).
Proof.
  intros Hlh. unfold clamp.
  destruct n as [| | |q]; cbn [Number_isNaN Math_min lt].
  - exists lo. repeat split; try lra. discriminate.
  - cbn [Math_max lt]. exists lo. repeat split; try lra. discriminate.
  - cbn [Math_max]. destruct (lt (Fin lo) (Fin hi)) eqn:E.
    + exists hi. repeat split; try lra. discriminate.
    + exists lo. repeat split; try lra. discriminate.
  - destruct (negb (Qle_bool q hi)) eqn:E1.
    + assert (H1 : (hi < q)%Q) by (apply lt_Fin; exact E1).
      cbn [Math_max]. destruct (lt (Fin lo) (Fin hi)) eqn:E2.
      * exists hi. repeat split; try lra. intros q' [= <-]. lra.
      * exists lo. repeat split; try lra. intros q' [= <-]. lra.
    + assert (H1 : (q <= hi)%Q) by (apply lt_Fin_false; exact E1).
      cbn [Math_max]. destruct (lt (Fin lo) (Fin q)) eqn:E2.
      * apply lt_Fin in E2. exists q. repeat split; try lra.
        intros q' [= <-]. reflexivity.
      * apply lt_Fin_false in E2. exists lo. repeat split; try lra.
        intros q' [= <-]. lra.
Qed.

(** Whatever [SAMPLE_RATE] holds, the rate the gate uses is a finite
    number between 0 and 1, equal to the configured one when that lies in
    the range, and a call is admitted exactly when its draw is at most
    that rate. *)
Theorem sample_rate_is_a_probability (env : Env) :
  exists c,
    sample_rate env = Fin c /\ (0 <= c)%Q /\ (c <= 1)%Q /\
    (forall q, configured_rate env = Fin q -> (0 <= q)%Q -> (q <= 1)%Q ->
       c == q) /\
    (forall random, admitted env random = true <-> (random <= c)%Q).
Proof.
  destruct (clamp_in_range (configured_rate env) 0 1) as (c & Hc & H0 & H1 & Hq);
    [discriminate|].
  exists c. unfold sample_rate. split; [exact Hc|].
  split; [exact H0|]. split; [exact H1|]. split; [exact Hq|].
  intros random. unfold admitted, gt, sample_rate. rewrite Hc.
  rewrite negb_true_iff. apply lt_Fin_false.
Qed.

(** The per-attempt timeout is never below 1: it is NaN exactly when the
    override (or ["6000"] in its place when absent or empty) does not
    parse, and otherwise at least 1, a parsed value from 1 up being taken
    as it is. *)
Theorem timeoutMs_is_at_least_one (env : Env) :
  let parsed := parseInt (or_else (REQUEST_TIMEOUT_MS env) "6000") in
  (timeoutMs env = NaN <-> parsed = NaN) /\
  (parsed <> NaN -> le (Fin 1) (timeoutMs env) = true) /\
  (forall q, parsed = Fin q -> (1 <= q)%Q -> timeoutMs env = Fin q) /\
  (forall q, parsed = Fin q -> (q < 1)%Q -> timeoutMs env = Fin 1).
Proof.
  cbv zeta. unfold timeoutMs.
  destruct (parseInt (or_else (REQUEST_TIMEOUT_MS env) "6000"))
    as [| | |q] eqn:E; cbn [Math_max lt].
  - repeat split; try discriminate; congruence.
  - repeat split; try discriminate; congruence.
  - repeat split; try discriminate; congruence.
  - destruct (negb (Qle_bool q 1)) eqn:E1.
    + assert (H : (1 < q)%Q) by (apply lt_Fin; exact E1).
      split; [split; discriminate|].
      split; [intros _; apply le_Fin; lra|].
      split; [intros q' [= <-] _; reflexivity|].
      intros q' [= <-] Hq. lra.
    + assert (H : (q <= 1)%Q) by (apply lt_Fin_false; exact E1).
      split; [split; discriminate|].
      split; [intros _; reflexivity|].
      split; [|intros q' [= <-] _; reflexivity].
      intros q' [= <-] Hq.
      pose proof (parseInt_cases (or_else (REQUEST_TIMEOUT_MS env) "6000"))
        as [Hc|[Hc|[Hc|[z Hc]]]]; rewrite E in Hc; try discriminate.
      injection Hc as Hqz. subst q.
      assert (Hz : z = 1).
      { apply Z.le_antisymm.
        - rewrite Zle_Qle. exact H.
        - rewrite Zle_Qle. exact Hq. }
      subst z. reflexivity.
Qed.

Lemma Set_of_NoDup (l : list string) : NoDup (Set_of l).
Proof.
  unfold Set_of.
  assert (H : forall acc,
             NoDup acc ->
             NoDup (fold_left
                      (fun acc x =>
                         if existsb (String.eqb x) acc then acc
                         else acc ++ [x]) l acc)).
  { induction l as [|x l IH]; intros acc Hacc; cbn [fold_left].
    - exact Hacc.
    - apply IH. destruct (existsb (String.eqb x) acc) eqn:E; [exact Hacc|].
      apply NoDup_app. split; [exact Hacc|]. split.
      + intros y Hy Hin. apply list_elem_of_In in Hy, Hin.
        destruct Hin as [<-|[]].
        assert (Hex : existsb (String.eqb x) acc = true).
        { apply existsb_exists. exists x. split; [exact Hy|].
          apply String.eqb_refl. }
        congruence.
      + apply NoDup_singleton. }
  apply H. constructor.
Qed.

Lemma Set_of_members (l : list string) (x : string) :
  In x (Set_of l) <-> In x l.
Proof.
  unfold Set_of.
  assert (H : forall acc,
             In x (fold_left
                     (fun acc y =>
                        if existsb (String.eqb y) acc then acc
                        else acc ++ [y]) l acc)
             <-> In x acc \/ In x l).
  { induction l as [|y l IH]; intros acc; cbn [fold_left In].
    - split; [now left | now intros [Hx|[]]].
    - rewrite IH. destruct (existsb (String.eqb y) acc) eqn:E.
      + apply existsb_exists in E. destruct E as (z & Hz & Hyz).
        apply String.eqb_eq in Hyz. subst z.
        split; [intros [Hx|Hx]; auto|].
        intros [Hx|[Hx|Hx]]; subst; auto.
      + rewrite in_app_iff. cbn [In].
        split; [intros [[Hx|[Hx|[]]]|Hx]; auto|].
        intros [Hx|[Hx|Hx]]; auto. }
  rewrite H. cbn [In]. split; [intros [[]|Hx]; exact Hx | now right].
Qed.

(** The redact set is a set: no name twice, none empty; it holds exactly
    the comma-separated entries of [REDACT_HEADERS], trimmed and in lower
    case, and [authorization] and [cookie] when the variable is unset. *)
Theorem redact_set_is_a_set (env : Env) :
  NoDup (redact_set env) /\
  (forall name,
      In name (redact_set env) <->
      exists piece,
        In piece (split ","
                    (nullish (REDACT_HEADERS env) "authorization,cookie")) /\
        name = toLowerCase (trim piece) /\ nonempty name = true) /\
  (REDACT_HEADERS env = None ->
   redact_set env = ["authorization"; "cookie"]).
Proof.
  split; [apply Set_of_NoDup|]. split.
  - intros name. unfold redact_set.
    rewrite Set_of_members, filter_In, in_map_iff. split.
    + intros [(piece & Hn & Hin) Hne]. exists piece. subst. auto.
    + intros (piece & Hin & Hn & Hne). split; [|exact Hne].
      exists piece. subst. auto.
  - intros H. unfold redact_set. rewrite H. vm_compute. reflexivity.
Qed.

End ConfigB.

(* ===================================================================== *)
(** ** Pipeline B: what goes upstream *)
(* ===================================================================== *)

Section ForwardedRequest.
Import JS PipelineB.

Variable hmacSha256Hex : string -> string -> string.
Variable upstream : nat -> UpstreamCall -> Upstream.

(** The redaction loop leaves alone every header it has no name for. *)
Lemma redact_headers_other (redact : list string) :
  forall (h : gmap string string) (name : string),
    (forall x, In x redact -> Headers.lower x <> Headers.lower name) ->
    Headers.get (redact_headers redact h) name = Headers.get h name.
Proof.
  unfold redact_headers.
  induction redact as [|x redact IH]; intros h name Hno; cbn [fold_left].
  - reflexivity.
  - rewrite IH by (intros y Hy; apply Hno; now right).
    destruct (Headers.has h x); [|reflexivity].
    apply get_set_other. apply Hno. now left.
Qed.

(** The redaction loop adds no header. *)
Lemma redact_headers_absent (redact : list string) :
  forall (h : gmap string string) (name : string),
    Headers.get h name = None ->
    Headers.get (redact_headers redact h) name = None.
Proof.
  unfold redact_headers.
  induction redact as [|x redact IH]; intros h name Hnone; cbn [fold_left].
  - exact Hnone.
  - apply IH. destruct (Headers.has h x) eqn:Ehas; [|exact Hnone].
    rewrite get_set.
    destruct (decide (Headers.lower x = Headers.lower name)) as [Heq|Hne];
      [|exact Hnone].
    exfalso. unfold Headers.has, Headers.get in Ehas, Hnone.
    rewrite Heq, Hnone in Ehas. discriminate Ehas.
Qed.

(** The signature header is the last thing [forward] may touch. *)
Lemma forward_get (env : Env) (request : Request) (name : string) :
  Headers.lower name <> "x-signature" \/ signing env = false ->
  Headers.get (fst (forward hmacSha256Hex env request)) name
  = Headers.get (filtered_headers env request) name.
Proof.
  intros H. unfold forward.
  destruct (signing env) eqn:Es; cbn [fst]; [|reflexivity].
  destruct H as [H|H]; [|discriminate].
  apply get_set_other. intros E. apply H. now symmetry.
Qed.

(** Headers the filter has no business with go upstream as they came.  A
    header that is neither named in the redact set nor one of the forced
    ones ([x-tenant-key], [user-agent], [content-type], and [x-signature]
    when signing) has upstream the value it has on the request, or is
    absent upstream if absent there.  And the filter invents no header: one
    that is absent from the request and not forced is absent upstream,
    named in the redact set or not. *)
Theorem other_headers_pass_through (env : Env) (request : Request) :
  let forwardHeaders := fst (forward hmacSha256Hex env request) in
  forall name,
    Headers.lower name <> "x-tenant-key" ->
    Headers.lower name <> "user-agent" ->
    Headers.lower name <> "content-type" ->
    (signing env = true -> Headers.lower name <> "x-signature") ->
    ((forall x, In x (redact_set env) ->
                Headers.lower x <> Headers.lower name) ->
     Headers.get forwardHeaders name = Headers.get (headers request) name) /\
    (Headers.get (headers request) name = None ->
     Headers.get forwardHeaders name = None).
Proof.
  cbv zeta. intros name Ht Hu Hc Hs.
  assert (Hfwd : Headers.get (fst (forward hmacSha256Hex env request)) name
                 = Headers.get (redact_headers (redact_set env)
                                  (headers request)) name).
  { rewrite forward_get.
    2:{ destruct (signing env); [left; now apply Hs | now right]. }
    unfold filtered_headers.
    set (fh := Headers.set _ "user-agent" UA).
    assert (Hfh : Headers.get fh name
                  = Headers.get (redact_headers (redact_set env)
                                   (headers request)) name).
    { unfold fh. now rewrite !get_set_other by (intros E; now symmetry in E). }
    destruct (negb (truthy_string (Headers.get fh "content-type")));
      [|exact Hfh].
    rewrite get_set_other by (intros E; now symmetry in E). exact Hfh. }
  rewrite Hfwd. split.
  - apply redact_headers_other.
  - apply redact_headers_absent.
Qed.

(** Every upstream POST declares a content type: the forwarded
    [content-type] header is always present and non-empty, and it is
    [application/json] when the request has none. *)
Theorem content_type_is_always_sent (env : Env) (request : Request) :
  exists v,
    Headers.get (fst (forward hmacSha256Hex env request)) "content-type"
    = Some v /\
    nonempty v = true /\
    (Headers.get (headers request) "content-type" = None ->
     v = "application/json").
Proof.
  rewrite forward_get by (left; discriminate).
  unfold filtered_headers.
  set (fh := Headers.set _ "user-agent" UA).
  assert (Hfh : Headers.get (headers request) "content-type" = None ->
                Headers.get fh "content-type" = None).
  { intros Hnone. unfold fh. rewrite !get_set_other by discriminate.
    now apply redact_headers_absent. }
  destruct (Headers.get fh "content-type") as [v|] eqn:Eget.
  - destruct (nonempty v) eqn:Ev; cbn [truthy_string negb]; rewrite ?Ev;
      cbn [negb].
    + exists v. rewrite Eget. split; [reflexivity|]. split; [exact Ev|].
      intros Hnone. specialize (Hfh Hnone). discriminate Hfh.
    + exists "application/json". rewrite get_set_same.
      split; [reflexivity|]. split; reflexivity.
  - cbn [truthy_string negb]. exists "application/json".
    rewrite get_set_same. split; [reflexivity|]. split; reflexivity.
Qed.

(** Signing covers the bytes that are sent.  [SIGN_BODY] switches signing
    on exactly when it reads ["true"] in any letter case.  With signing on,
    the body of every upstream POST is the buffered request body (empty
    when the request has none) and [x-signature] is the HMAC of exactly
    those bytes under the tenant key; with signing off the request's own
    body stream is sent.  Every POST of the call goes to [INGEST_URL] with
    this body and the same timeout. *)
Theorem signature_covers_sent_bytes (env : Env) (request : Request) :
  (signing env = true <->
   exists s, SIGN_BODY env = Some s /\ toLowerCase s = "true") /\
  (signing env = true ->
   let arr := nullish (body request) "" in
   snd (forward hmacSha256Hex env request) = Buffered arr /\
   Headers.get (fst (forward hmacSha256Hex env request)) "x-signature"
   = Some (hmacSha256Hex (TENANT_KEY env) arr)) /\
  (signing env = false ->
   snd (forward hmacSha256Hex env request) = Original (body request)) /\
  (forall random fuel resp trace a call,
      fetch hmacSha256Hex upstream fuel request env random
      = Some (resp, trace) ->
      In (a, call) trace ->
      call_body call = snd (forward hmacSha256Hex env request) /\
      call_url call = INGEST_URL env /\
      call_timeout call = timeoutMs env).
Proof.
  split; [|split; [|split]].
  - unfold signing, nullish. destruct (SIGN_BODY env) as [s|].
    + rewrite String.eqb_eq. split.
      * intros H. now exists s.
      * intros (s' & [= <-] & H). exact H.
    + split; [discriminate | intros (s & Hs & _); discriminate].
  - intros Hs. cbv zeta. unfold forward. rewrite Hs. cbn [fst snd].
    split; [reflexivity | apply get_set_same].
  - intros Hs. unfold forward. rewrite Hs. reflexivity.
  - intros random fuel resp trace a call. unfold fetch.
    destruct (String.eqb (pathname request) "/__health").
    { intros H. injection H as _ <-. intros []. }
    destruct (gt (Fin random) (sample_rate env)).
    { intros H. injection H as _ <-. intros []. }
    destruct (forward hmacSha256Hex env request) as [fh bodyForSend].
    intros H Hin.
    destruct (retry_loop_calls _ _ _ _ _ _ _ _ H a call Hin) as [[] | ->].
    repeat split.
Qed.

(** How the loop ran, read off its trace. *)
Lemma retry_loop_history (retries : nat) (call : UpstreamCall) (fuel : nat) :
  forall attempt trace resp trace',
    retry_loop upstream retries call fuel attempt trace
    = Some (resp, trace') ->
    exists n,
      (1 <= n)%nat /\
      trace' = trace ++ map (fun i => (i, call)) (seq (S attempt) n) /\
      (forall i, (attempt < i < attempt + n)%nat ->
         (i <= retries + 1)%nat /\
         (upstream i call = Thrown \/
          exists code, upstream i call = Status code /\ 500 <= code)) /\
      match upstream (attempt + n)%nat call with
      | Status code =>
          resp = {| status := code; payload := None |} /\
          (code < 500 \/ (retries + 1 < attempt + n)%nat)
      | Thrown =>
          resp = {| status := 524; payload := None |} /\
          (retries + 1 < attempt + n)%nat
      end.
Proof.
  induction fuel as [|fuel IH]; intros attempt trace resp trace' H;
    [discriminate|].
  cbn [retry_loop] in H.
  assert (Hstop : forall r,
             Some (r, trace ++ [(S attempt, call)]) = Some (resp, trace') ->
             match upstream (attempt + 1)%nat call with
             | Status code =>
                 r = {| status := code; payload := None |} /\
                 (code < 500 \/ (retries + 1 < attempt + 1)%nat)
             | Thrown =>
                 r = {| status := 524; payload := None |} /\
                 (retries + 1 < attempt + 1)%nat
             end ->
             exists n,
               (1 <= n)%nat /\
               trace' = trace ++ map (fun i => (i, call)) (seq (S attempt) n) /\
               (forall i, (attempt < i < attempt + n)%nat ->
                  (i <= retries + 1)%nat /\
                  (upstream i call = Thrown \/
                   exists code, upstream i call = Status code /\ 500 <= code)) /\
               match upstream (attempt + n)%nat call with
               | Status code =>
                   resp = {| status := code; payload := None |} /\
                   (code < 500 \/ (retries + 1 < attempt + n)%nat)
               | Thrown =>
                   resp = {| status := 524; payload := None |} /\
                   (retries + 1 < attempt + n)%nat
               end).
  { intros r Hr Hlast. injection Hr as -> <-. exists 1%nat.
    split; [lia|]. split; [reflexivity|]. split; [intros i Hi; lia|].
    exact Hlast. }
  assert (Hmore : (S attempt <= retries + 1)%nat ->
             (upstream (S attempt) call = Thrown \/
              exists code, upstream (S attempt) call = Status code /\
                           500 <= code) ->
             retry_loop upstream retries call fuel (S attempt)
               (trace ++ [(S attempt, call)]) = Some (resp, trace') ->
             exists n,
               (1 <= n)%nat /\
               trace' = trace ++ map (fun i => (i, call)) (seq (S attempt) n) /\
               (forall i, (attempt < i < attempt + n)%nat ->
                  (i <= retries + 1)%nat /\
                  (upstream i call = Thrown \/
                   exists code, upstream i call = Status code /\ 500 <= code)) /\
               match upstream (attempt + n)%nat call with
               | Status code =>
                   resp = {| status := code; payload := None |} /\
                   (code < 500 \/ (retries + 1 < attempt + n)%nat)
               | Thrown =>
                   resp = {| status := 524; payload := None |} /\
                   (retries + 1 < attempt + n)%nat
               end).
  { intros Hle Hretry Hrec.
    destruct (IH _ _ _ _ Hrec) as (n & Hn & Htr & Hall & Hlast).
    exists (S n). split; [lia|]. split.
    - rewrite Htr, <- app_assoc. reflexivity.
    - split.
      + intros i Hi. destruct (Nat.eq_dec i (S attempt)) as [->|Hne].
        * split; assumption.
        * apply Hall. lia.
      + replace (attempt + S n)%nat with (S attempt + n)%nat by lia.
        exact Hlast. }
  destruct (upstream (S attempt) call) as [code|] eqn:Eu.
  - destruct ((500 <=? code) && (S attempt <=? retries + 1)%nat) eqn:Ec.
    + apply andb_true_iff in Ec. destruct Ec as [E5 Ele].
      apply Z.leb_le in E5. apply Nat.leb_le in Ele.
      apply Hmore; [exact Ele | right; now exists code | exact H].
    + apply (Hstop _ H). rewrite Nat.add_1_r, Eu. split; [reflexivity|].
      apply andb_false_iff in Ec. destruct Ec as [E5|Ele].
      * left. apply Z.leb_gt in E5. exact E5.
      * right. apply Nat.leb_gt in Ele. lia.
  - destruct (retries + 1 <? S attempt)%nat eqn:Ec.
    + apply (Hstop _ H). rewrite Nat.add_1_r, Eu. split; [reflexivity|].
      apply Nat.ltb_lt in Ec. lia.
    + apply Nat.ltb_ge in Ec.
      apply Hmore; [exact Ec | now left | exact H].
Qed.


End ForwardedRequest.

(* ===================================================================== *)
(** ** The further theorems at work *)
(* ===================================================================== *)

Section SamplesA.
Import JS PipelineA Capture Scenarios.A Samples.A.

(** With a ceiling of 1: [a] is delivered, [b] fails and is requeued. *)
Lemma captured_events_are_conserved_witness :
  exists w,
    run env_batch_of_one boot
      [Capture a 0; Capture b 1; FetchSettles 0 (Responded 200) 0 2;
       FetchSettles 0 (Responded 429) 0 3] = Some w /\
    acknowledged env_batch_of_one boot
      [Capture a 0; Capture b 1; FetchSettles 0 (Responded 200) 0 2;
       FetchSettles 0 (Responded 429) 0 3] = [a] /\
    Permutation [a; b] ([a] ++ batch (vars w) ++ concat (inflight w)).
Proof.
  eexists. split; [vm_compute; reflexivity|]. split; [reflexivity|].
  apply (captured_events_are_conserved env_batch_of_one
           [Capture a 0; Capture b 1; FetchSettles 0 (Responded 200) 0 2;
            FetchSettles 0 (Responded 429) 0 3] boot).
  vm_compute. reflexivity.
Defined.

(** The same run: two POSTs issued, both settled, none pending. *)
Lemma no_empty_post_witness :
  exists w,
    run env_batch_of_one boot
      [Capture a 0; Capture b 1; FetchSettles 0 (Responded 200) 0 2;
       FetchSettles 0 (Responded 429) 0 3] = Some w /\
    Forall (fun p => post_lines p <> [] /\
                     post_url p = clarityEndpoint (cfg env_batch_of_one))
      (posts w) /\
    List.length (posts w) = 2%nat.
Proof.
  eexists. split; [vm_compute; reflexivity|].
  split; [|reflexivity].
  apply (no_empty_post env_batch_of_one
           [Capture a 0; Capture b 1; FetchSettles 0 (Responded 200) 0 2;
            FetchSettles 0 (Responded 429) 0 3]).
  vm_compute. reflexivity.
Defined.

(** Two captures inside the window that ends at 22050. *)
Lemma cooldown_only_accumulates_witness :
  exists w',
    run env_defaults cooling_down (captures [(b, 21000); (c, 21500)])
    = Some w' /\
    batch (vars w') = [a; b; c] /\
    posts w' = posts cooling_down.
Proof.
  destruct (cooldown_only_accumulates env_defaults [(b, 21000); (c, 21500)]
              cooling_down) as (w' & Hrun & Hb & Hp & _).
  - repeat constructor.
  - exists w'. split; [exact Hrun|]. split; [exact Hb | exact Hp].
Defined.

(** Three captures under the default ceiling of 200, then the timer. *)
Lemma timer_delivers_in_capture_order_witness :
  exists w1 w2,
    run env_defaults boot (captures [(a, 0); (b, 1); (c, 2)]) = Some w1 /\
    step env_defaults w1 (TimerFires 0 20000) = Some w2 /\
    map post_lines (posts w2) = [[a; b; c]].
Proof.
  destruct (timer_delivers_in_capture_order env_defaults
              [(a, 0); (b, 1); (c, 2)] 20000)
    as (w1 & w2 & H1 & _ & _ & _ & H5 & H6 & _).
  - discriminate.
  - reflexivity.
  - lia.
  - exists w1, w2. split; [exact H1|]. split; [exact H5|].
    rewrite H6. reflexivity.
Defined.

(** A ceiling of 1: the first capture leaves at once. *)
Lemma ceiling_flushes_at_once_witness :
  map post_lines (posts (logAndBatch env_batch_of_one a (of_Z 0) boot))
  = [[a]] /\
  timers (logAndBatch env_batch_of_one a (of_Z 0) boot) = [].
Proof.
  destruct (ceiling_flushes_at_once env_batch_of_one a (of_Z 0) boot)
    as [Hout _]; [reflexivity|].
  rewrite (Hout eq_refl). split; reflexivity.
Defined.

(** The pending POST fails: nothing goes out, and its outbox is back at
    the front of the queue. *)
Lemma no_post_until_next_capture_witness :
  exists w',
    run env_defaults stranded [FetchSettles 0 Rejected 0 30000] = Some w' /\
    posts w' = posts stranded /\ timers w' = [] /\
    batch (vars w')
    = requeued env_defaults stranded [FetchSettles 0 Rejected 0 30000]
      ++ batch (vars stranded).
Proof.
  eexists. split; [vm_compute; reflexivity|].
  destruct (no_post_until_next_capture env_defaults
              [FetchSettles 0 Rejected 0 30000] stranded _
              eq_refl eq_refl eq_refl) as (Hp & Ht & Hb & _).
  split; [exact Hp|]. split; [exact Ht | exact Hb].
Defined.

(** The defaults: 2000, 4000, 8000. *)
Lemma backoff_doubles_from_base_witness :
  exists q,
    backoffMs (failures (cfg env_defaults) three_failures initial) = Fin q /\
    q == 8000.
Proof.
  destruct (backoff_doubles_from_base env_defaults three_failures initial
              2000 60000) as (q & Hq & Hqq).
  - reflexivity.
  - reflexivity.
  - reflexivity.
  - discriminate.
  - reflexivity.
  - discriminate.
  - exists q. split; [exact Hq|]. rewrite Hqq. reflexivity.
Defined.

(** A page fetched over https with no edge metadata. *)
Lemma scheme_is_url_scheme_witness :
  ClientRequestScheme
    (buildLogObject "2024-01-01T00:00:00.000Z" page {| status := Fin 200 |})
  = "https".
Proof.
  apply (scheme_is_url_scheme "2024-01-01T00:00:00.000Z" page
           {| status := Fin 200 |}).
  - reflexivity.
  - reflexivity.
  - cbn. intros [H|[H|[H|[H|[H|[]]]]]]; discriminate H.
Defined.

End SamplesA.

Section SamplesB.
Import JS PipelineB Scenarios.B Samples.B.

(** [x-trace-id] is no business of the filter. *)
Lemma other_headers_pass_through_witness :
  Headers.get (fst (forward no_hmac env_defaults traced_request))
    "x-trace-id" = Some "t-42".
Proof.
  destruct (other_headers_pass_through no_hmac env_defaults traced_request
              "x-trace-id") as [Hsame _]; try discriminate.
  rewrite Hsame; [reflexivity|].
  intros x Hx. vm_compute in Hx.
  destruct Hx as [<-|[<-|[]]]; discriminate.
Defined.



End SamplesB.

Section SamplesSigning.
Import JS PipelineB Signing Scenarios.B Samples.B.

(** [SIGN_BODY] reads ["TRUE"]; the request has no body. *)
Lemma signature_covers_sent_bytes_witness :
  signing env_signing = true /\
  snd (forward (hmacSha256Hex toy_digest) env_signing traced_request)
  = Buffered "" /\
  Headers.get
    (fst (forward (hmacSha256Hex toy_digest) env_signing traced_request))
    "x-signature"
  = Some (hmacSha256Hex toy_digest "tenant-key-1" "").
Proof.
  destruct (signature_covers_sent_bytes (hmacSha256Hex toy_digest)
              (always 200) env_signing traced_request)
    as (Hon & Hsigned & _ & _).
  assert (Hs : signing env_signing = true).
  { apply Hon. exists "TRUE". split; reflexivity. }
  split; [exact Hs|]. exact (Hsigned Hs).
Defined.

(** A 32-byte digest gives 64 characters that read back as the digest. *)
Lemma hmacSha256Hex_is_lowercase_hex_witness :
  String.length (hmacSha256Hex toy_digest "tenant-key-1" "{}") = 64%nat /\
  unhex (hmacSha256Hex toy_digest "tenant-key-1" "{}")
  = Some (toy_digest "tenant-key-1" "{}").
Proof.
  destruct (hmacSha256Hex_is_lowercase_hex toy_digest "tenant-key-1" "{}")
    as (_ & Hlen & _ & Hun & _).
  split; [apply Hlen; reflexivity | exact Hun].
Defined.

End SamplesSigning.
